(** * doit command line driver ([doit/doit_cmd.py])

    A shallow embedding of the dispatcher [cmd_main], of the commands of
    [DOIT_BUILTIN_CMDS] and of [DoitCmdBase.read_dodo], with the properties
    of the command line interface proved about them.

    Python values are modelled by the inductive [value], dictionaries by
    stdpp's [gmap], exceptions by the inductive [exn]; printing, the
    variable table of the [doit] module, the loader and the executors are
    effects recorded in a history of [effect]s that is threaded through
    the code. *)

From stdpp Require Import gmap strings list fin_maps sorting.
From Stdlib Require Import Ascii ZArith Lia.

Local Open Scope string_scope.
Local Open Scope list_scope.

(** ** Strings, as Python uses them in [cmd_main] *)

(** [arg[0]]: the first character; [None] stands for the [IndexError]
    Python raises on the empty string. *)
Definition first_char (s : string) : option ascii :=
  match s with
  | EmptyString => None
  | String c _ => Some c
  end.

(** [c in s] for a one-character [c]. *)
Fixpoint contains (c : ascii) (s : string) : bool :=
  match s with
  | EmptyString => false
  | String a s' => if Ascii.eqb a c then true else contains c s'
  end.

(** [s.split(c, 1)]: the text before the first [c] and the text after it;
    when [c] does not occur, Python returns the one-element list [[s]],
    modelled by an empty second component flagged by [false]. *)
Fixpoint split_first (c : ascii) (s : string) : string * string * bool :=
  match s with
  | EmptyString => (EmptyString, EmptyString, false)
  | String a s' =>
      if Ascii.eqb a c then (EmptyString, s', true)
      else let '(l, r, found) := split_first c s' in (String a l, r, found)
  end.

(** [str.lower] on ASCII letters. *)
Definition lower_ascii (a : ascii) : ascii :=
  let n := nat_of_ascii a in
  if (65 <=? n)%nat && (n <=? 90)%nat then ascii_of_nat (n + 32) else a.

Fixpoint lower (s : string) : string :=
  match s with
  | EmptyString => EmptyString
  | String a s' => String (lower_ascii a) (lower s')
  end.

(** ** Values and option descriptions *)

(** The Python values that option defaults, parameters and the manifest
    configuration hold. [VStdout] is the file object [sys.stdout]. *)
Inductive value : Type :=
| VNone
| VBool (b : bool)
| VInt (z : Z)
| VStr (s : string)
| VList (l : list string)
| VStdout.

(** Python truth value, for [not params['quiet']]. *)
Definition truthy (v : value) : bool :=
  match v with
  | VNone => false
  | VBool b => b
  | VInt z => negb (z =? 0)%Z
  | VStr s => negb (String.eqb s "")
  | VList l => match l with [] => false | _ => true end
  | VStdout => true
  end.

(** The ['type'] entry of an option dictionary. *)
Inductive opt_type : Type := TStr | TBool | TInt.

(** One option dictionary ([opt_dodo], [opt_continue], ...); ['inverse']
    is present in [opt_continue] only. *)
Record OptionSpec : Type := mkOpt {
  opt_name : string;
  opt_short : string;
  opt_long : string;
  opt_inverse : option string;
  opt_ty : opt_type;
  opt_default : value;
  opt_help : string
}.

Definition opt_dodo : OptionSpec :=
  mkOpt "dodoFile" "f" "file" None TStr (VStr "dodo.py")
        "load task from dodo FILE [default: %(default)s]".

Definition opt_cwd : OptionSpec :=
  mkOpt "cwdPath" "d" "dir" None TStr VNone
        ("set path to be used as cwd directory (file paths on " +:+
         "dodo file are relative to dodo.py location.").

Definition opt_seek_file : OptionSpec :=
  mkOpt "seek_file" "" "seek-file" None TBool (VBool false)
        ("seek dodo file on parent folders " +:+ "[default: %(default)s]").

Definition opt_outfile : OptionSpec :=
  mkOpt "outfile" "o" "output-file" None TStr VStdout
        "write output into file [default: stdout]".

Definition opt_depfile : OptionSpec :=
  mkOpt "dep_file" "" "db-file" None TStr (VStr ".doit.db")
        "file used to save successful runs".

Definition opt_always : OptionSpec :=
  mkOpt "always" "a" "always-execute" None TBool (VBool false)
        ("always execute tasks even if up-to-date [default: " +:+
         "%(default)s]").

Definition opt_continue : OptionSpec :=
  mkOpt "continue" "c" "continue" (Some "no-continue") TBool (VBool false)
        ("continue executing tasks even after a failure " +:+
         "[default: %(default)s]").

Definition opt_num_process : OptionSpec :=
  mkOpt "num_process" "n" "process" None TInt (VInt 0)
        ("number of subprocesses" +:+ "[default: %(default)s]").

Definition opt_verbosity : OptionSpec :=
  mkOpt "verbosity" "v" "verbosity" None TInt VNone
        "0 capture (do not print) stdout/stderr from task.
1 capture stdout only.
2 do not capture anything (print everything immediately).
[default: 1]".

Definition opt_reporter : OptionSpec :=
  mkOpt "reporter" "r" "reporter" None TStr (VStr "default")
        "Choose output reporter. Available:
'default': report output on console
'executed-only': no output for skipped (up-to-date) and group tasks
'json': output result in json format
".

Definition opt_listall : OptionSpec :=
  mkOpt "all" "" "all" None TBool (VBool false)
        "list include all sub-tasks from dodo file".

Definition opt_list_quiet : OptionSpec :=
  mkOpt "quiet" "q" "quiet" None TBool (VBool false)
        "print just task name (less verbose than default)".

Definition opt_list_status : OptionSpec :=
  mkOpt "status" "s" "status" None TBool (VBool false)
        "print task status (R)un, (U)p-to-date, (I)gnored".

Definition opt_list_private : OptionSpec :=
  mkOpt "private" "p" "private" None TBool (VBool false)
        "print private tasks (start with '_')".

Definition opt_list_dependencies : OptionSpec :=
  mkOpt "list_deps" "" "deps" None TBool (VBool false)
        ("print list of dependencies " +:+ "(file dependencies only)").

Definition opt_clean_dryrun : OptionSpec :=
  mkOpt "dryrun" "n" "dry-run" None TBool (VBool false)
        "print actions without really executing them".

Definition opt_clean_cleandep : OptionSpec :=
  mkOpt "cleandep" "c" "clean-dep" None TBool (VBool false)
        "clean task dependencies too".

Definition opt_clean_cleanall : OptionSpec :=
  mkOpt "cleanall" "a" "clean-all" None TBool (VBool false)
        "clean all task".

(** ** Commands and the registry *)

(** The classes instantiated in [DOIT_BUILTIN_CMDS]. An instance carries no
    data of its own when it is created, so a command object is modelled by
    its class. *)
Inductive cmd_class : Type :=
  Help | Run | List | Clean | Forget | Ignore | Auto.

Global Instance cmd_class_eq_dec : EqDecision cmd_class.
Proof. solve_decision. Defined.

Definition class_name (c : cmd_class) : string :=
  match c with
  | Help => "Help" | Run => "Run" | List => "List" | Clean => "Clean"
  | Forget => "Forget" | Ignore => "Ignore" | Auto => "Auto"
  end.

(** Modelled from the spec: the constructor of the base class [Command]
    ([doit/cmd_base.py]) is missing; the spec gives a command's identity as
    its lowercase name. *)
Definition cmd_name (c : cmd_class) : string := lower (class_name c).

Definition doc_purpose (c : cmd_class) : string :=
  match c with
  | Help => "show help"
  | Run => "run tasks"
  | List => "list tasks from dodo file"
  | Clean => "clean action / remove targets"
  | Forget => "clear successful run status from internal DB"
  | Ignore => "ignore task (skip) on subsequent runs"
  | Auto => "automatically execute tasks when a dependency changes"
  end.

Definition doc_usage (c : cmd_class) : string :=
  match c with
  | Help => ""
  | Run => "[TASK/TARGET...]"
  | List | Clean | Forget => "[TASK ...]"
  | Ignore | Auto => "TASK [TASK ...]"
  end.

Definition doc_description (c : cmd_class) : option string :=
  match c with
  | Clean => Some ("If no task is specified clean default tasks and " +:+
                   "set --clean-dep automatically.")
  | _ => None
  end.

(** [DoitCmdBase.base_options]. *)
Definition base_options : list OptionSpec :=
  [opt_dodo; opt_cwd; opt_seek_file; opt_depfile].

(** The [cmd_options] attribute of each subclass of [DoitCmdBase]. *)
Definition cmd_options (c : cmd_class) : list OptionSpec :=
  match c with
  | Run => [opt_always; opt_continue; opt_verbosity;
            opt_reporter; opt_outfile; opt_num_process]
  | List => [opt_listall; opt_list_quiet; opt_list_status;
             opt_list_private; opt_list_dependencies]
  | Clean => [opt_clean_cleandep; opt_clean_cleanall; opt_clean_dryrun]
  | Auto => [opt_verbosity]
  | Help | Forget | Ignore => []
  end.

(** The subclasses of [DoitCmdBase]: every command but [Help]. *)
Definition is_DoitCmdBase (c : cmd_class) : bool :=
  match c with Help => false | _ => true end.

(** [DoitCmdBase.set_options]. *)
Definition DoitCmdBase_set_options (c : cmd_class) : list OptionSpec :=
  base_options ++ cmd_options c.

(** Modelled from the spec: [Command.set_options] of the missing
    [cmd_base.py], which [Help] inherits; a command owns the list of its
    own options, and [Help] declares none. *)
Definition Command_set_options (c : cmd_class) : list OptionSpec :=
  cmd_options c.

(** The options of a command object. *)
Definition set_options (c : cmd_class) : list OptionSpec :=
  if is_DoitCmdBase c then DoitCmdBase_set_options c
  else Command_set_options c.

Definition DOIT_BUILTIN_CMDS : list cmd_class :=
  [Help; Run; List; Clean; Forget; Ignore; Auto].

(** [dict((cmd.name, cmd) for cmd in cmds)]: a later pair replaces an
    earlier one with the same key. *)
Definition build_registry (cmds : list cmd_class) : gmap string cmd_class :=
  foldl (fun m c => <[cmd_name c := c]> m) ∅ cmds.

(** ** Exceptions *)

(** The exception classes the code meets: the four that [cmd_main] reports
    without a traceback, the [IndexError] and [KeyError] of indexing, and
    any other subclass of [Exception]. The argument is [str(err)]. *)
Inductive exn : Type :=
| CmdParseError (msg : string)
| InvalidDodoFile (msg : string)
| InvalidCommand (msg : string)
| InvalidTask (msg : string)
| IndexError (msg : string)
| KeyError (key : string)
| OtherException (msg : string).

(** The tuple of the first [except] clause of [cmd_main]. *)
Definition user_error (e : exn) : option string :=
  match e with
  | CmdParseError m | InvalidDodoFile m | InvalidCommand m | InvalidTask m =>
      Some m
  | _ => None
  end.

(** Pure code that may raise. *)
Definition bind_exn {A B} (m : exn + A) (k : A -> exn + B) : exn + B :=
  match m with
  | inl e => inl e
  | inr a => k a
  end.

Global Instance exn_ret : MRet (sum exn) := fun A a => inr a.
Global Instance exn_bind : MBind (sum exn) := fun A B k m => bind_exn m k.

(** ** Effects

    A computation takes the history of the effects performed so far and
    returns the history extended with its own, with a result or the
    exception it raised. *)
Definition M (E A : Type) : Type := list E -> list E * (exn + A).

Definition ret_M {E A} (a : A) : M E A := fun h => (h, inr a).

Definition bind_M {E A B} (m : M E A) (k : A -> M E B) : M E B :=
  fun h => match m h with
           | (h', inl e) => (h', inl e)
           | (h', inr a) => k a h'
           end.

Definition raise {E A} (e : exn) : M E A := fun h => (h, inl e).

Definition emit {E} (ev : E) : M E unit := fun h => (h ++ [ev], inr tt).

(** The result of an external call, which may depend on the history. *)
Definition external {E A} (ev : E) (f : list E -> exn + A) : M E A :=
  fun h => (h ++ [ev], f h).

Definition lift_exn {E A} (r : exn + A) : M E A := fun h => (h, r).

(** [try: m  except Exception, err: handler(err)]. *)
Definition try_except {E A} (m : M E A) (handler : exn -> M E A) : M E A :=
  fun h => match m h with
           | (h', inl e) => handler e h'
           | (h', inr a) => (h', inr a)
           end.

Global Instance M_ret {E} : MRet (M E) := fun A a => ret_M a.
Global Instance M_bind {E} : MBind (M E) := fun A B k m => bind_M m k.

(** ** Parameters

    [cmdparse.py] is not part of the sources at hand; the parameter
    dictionary and the option parser below follow the specification. *)

(** Modelled from the spec: the dictionary class of [cmdparse.py] whose
    [update_defaults] is called by [read_dodo] is missing. A ParamSet maps
    option ids to values and carries the presence bit [explicit] of every
    option set on the command line. *)
Record ParamSet : Type := mkParamSet {
  items : gmap string value;
  explicit : gset string
}.

(** Modelled from the spec: the ParamSet is created from the OptionSpec
    defaults; a default does not set the presence bit. *)
Definition set_default (k : string) (v : value) (p : ParamSet) : ParamSet :=
  mkParamSet (<[k := v]> (items p)) (explicit p).

(** Modelled from the spec: an explicit command line value sets the
    presence bit. *)
Definition set_item (k : string) (v : value) (p : ParamSet) : ParamSet :=
  mkParamSet (<[k := v]> (items p)) ({[k]} ∪ explicit p).

(** Modelled from the spec: [update_defaults] of the missing [cmdparse.py]
    merges the defaults the manifest declares only for options not
    explicitly set on the command line. *)
Definition update_defaults (p : ParamSet) (config : gmap string value)
  : ParamSet :=
  mkParamSet (filter (fun kv => kv.1 ∉ explicit p) config ∪ items p)
             (explicit p).

(** The dictionary [execute] receives: the ParamSet and, under the reserved
    key ['sub'], the registry that [cmd_main] passes as [sub=sub_cmd]. *)
Record Params : Type := mkParams {
  pset : ParamSet;
  sub : gmap string cmd_class
}.

(** ** The option parser (from the specification) *)

(** Modelled from the spec: an option is named by its flag or, for a
    boolean option that declares one, by its inverse flag. *)
Inductive polarity : Type := Direct | Inverse.

Global Instance polarity_eq_dec : EqDecision polarity.
Proof. solve_decision. Defined.

(** Modelled from the spec: one occurrence of an option in argv, with the
    index of the flag token, the option, whether the flag or its inverse
    was written, and the text of the value for an option that takes one. *)
Record event : Type := mkEvent {
  ev_pos : nat;
  ev_opt : OptionSpec;
  ev_pol : polarity;
  ev_arg : option string
}.

(** Modelled from the spec: what a token is, given the options of the
    command. *)
Inductive resolved : Type :=
| RPos
| RUnknown
| RFlag (o : OptionSpec) (pol : polarity) (arg : option string).

Definition is_bool (t : opt_type) : bool :=
  match t with TBool => true | _ => false end.

(** Modelled from the spec: a long flag names the option whose long flag it
    is, or the boolean option whose inverse flag it is. *)
Fixpoint find_long (opts : list OptionSpec) (flag : string)
  : option (OptionSpec * polarity) :=
  match opts with
  | [] => None
  | o :: opts' =>
      if String.eqb (opt_long o) flag then Some (o, Direct)
      else if is_bool (opt_ty o) &&
              bool_decide (opt_inverse o = Some flag) then Some (o, Inverse)
      else find_long opts' flag
  end.

(** Modelled from the spec: a short flag is one character. *)
Fixpoint find_short (opts : list OptionSpec) (flag : string)
  : option OptionSpec :=
  match opts with
  | [] => None
  | o :: opts' =>
      if String.eqb (opt_short o) flag && (String.length flag =? 1)%nat
      then Some o
      else find_short opts' flag
  end.

(** Modelled from the spec: [--flag] and [--flag=value]. *)
Definition resolve_long (opts : list OptionSpec) (body : string) : resolved :=
  let '(flag, arg, found) := split_first "=" body in
  match find_long opts flag with
  | Some (o, pol) => RFlag o pol (if found then Some arg else None)
  | None => RUnknown
  end.

(** Modelled from the spec: [-f]. *)
Definition resolve_short (opts : list OptionSpec) (body : string)
  : resolved :=
  match find_short opts body with
  | Some o => RFlag o Direct None
  | None => RUnknown
  end.

(** Modelled from the spec: a token that starts with [-] is a flag, long
    after [--] and short otherwise; any other token is positional; a flag
    of no option is unrecognized. *)
Definition resolve (opts : list OptionSpec) (tok : string) : resolved :=
  match tok with
  | EmptyString => RPos
  | String c rest =>
      if Ascii.eqb c "-" then
        match rest with
        | EmptyString => resolve_short opts rest
        | String c' body =>
            if Ascii.eqb c' "-" then resolve_long opts body
            else resolve_short opts rest
        end
      else RPos
  end.

(** Modelled from the spec: the scan of argv. A boolean flag stands alone;
    any other flag takes the [--flag=value] text or the following token.
    An unrecognized flag, a boolean flag with a value and a missing value
    are parse failures. [i] is the argv index of the first token. *)
Fixpoint tokenize (opts : list OptionSpec) (i : nat) (argv : list string)
  : exn + (list event * list string) :=
  match argv with
  | [] => inr ([], [])
  | tok :: rest =>
      match resolve opts tok with
      | RPos =>
          '(evs, pos) ← tokenize opts (S i) rest;
          mret (evs, tok :: pos)
      | RUnknown => inl (CmdParseError ("unrecognized option " +:+ tok))
      | RFlag o pol arg =>
          match is_bool (opt_ty o), arg with
          | true, None =>
              '(evs, pos) ← tokenize opts (S i) rest;
              mret (mkEvent i o pol None :: evs, pos)
          | true, Some _ =>
              inl (CmdParseError ("option takes no value " +:+ tok))
          | false, Some a =>
              '(evs, pos) ← tokenize opts (S i) rest;
              mret (mkEvent i o pol (Some a) :: evs, pos)
          | false, None =>
              match rest with
              | [] => inl (CmdParseError ("option requires a value " +:+ tok))
              | a :: rest' =>
                  '(evs, pos) ← tokenize opts (S (S i)) rest';
                  mret (mkEvent i o pol (Some a) :: evs, pos)
              end
          end
      end
  end.

(** Modelled from the spec: the ParamSet of the OptionSpec defaults. *)
Definition defaults (opts : list OptionSpec) : ParamSet :=
  foldl (fun p o => set_default (opt_name o) (opt_default o) p)
        (mkParamSet ∅ ∅) opts.

(** ** Tactics *)

(** Membership in a list that is written out. *)
Ltac list_cases H :=
  repeat (apply elem_of_cons in H as [->|H]; [try done; try discriminate|]);
  try (by apply elem_of_nil in H).

Ltac list_mem := cbn; repeat first [by left | right].

(** Unfolding of the monad operations. *)
Ltac unfold_M :=
  repeat (unfold mbind, mret, M_bind, M_ret, exn_bind, exn_ret, bind_M, ret_M,
          bind_exn, raise, emit, external, lift_exn, try_except in *;
          cbn beta iota in *).

Section Parser.

(** The conversion of an option's text to its declared type is part of the
    missing [cmdparse.py]; it is a parameter of the parser. *)
Variable convert : opt_type -> string -> option value.

(** Modelled from the spec: the value one occurrence gives its option;
    presence of a boolean flag means true, of its inverse false. *)
Definition event_value (e : event) : exn + value :=
  if is_bool (opt_ty (ev_opt e)) then
    inr (VBool (bool_decide (ev_pol e = Direct)))
  else
    match ev_arg e with
    | None => inl (CmdParseError "option requires a value")
    | Some a =>
        match convert (opt_ty (ev_opt e)) a with
        | Some v => inr v
        | None => inl (CmdParseError ("invalid value " +:+ a))
        end
    end.

(** Modelled from the spec: an occurrence sets its option, and the
    occurrences are applied in argv order. *)
Definition apply_event (p : ParamSet) (e : event) : exn + ParamSet :=
  v ← event_value e;
  mret (set_item (opt_name (ev_opt e)) v p).

Fixpoint apply_events (p : ParamSet) (evs : list event) : exn + ParamSet :=
  match evs with
  | [] => inr p
  | e :: evs' => p' ← apply_event p e; apply_events p' evs'
  end.

(** Modelled from the spec: the first pass over a fresh ParamSet, the
    explicit command line values in argv order. *)
Definition parse (opts : list OptionSpec) (argv : list string)
  : exn + (ParamSet * list string) :=
  '(evs, pos) ← tokenize opts 0 argv;
  p ← apply_events (defaults opts) evs;
  mret (p, pos).

(** The value the command line gives the option [n]: that of its last
    occurrence, if it has one. *)
Fixpoint cli_value (n : string) (evs : list event) : option value :=
  match evs with
  | [] => None
  | e :: evs' =>
      match cli_value n evs' with
      | Some v => Some v
      | None =>
          if String.eqb (opt_name (ev_opt e)) n then
            match event_value e with
            | inr v => Some v
            | inl _ => None
            end
          else None
      end
  end.

End Parser.

(** ** A sample command line and manifest

    Decimal numbers for [int], and the configuration of a manifest that
    declares the default selection, a verbosity and the continue flag. *)

Definition digit (a : ascii) : option Z :=
  let n := nat_of_ascii a in
  if (48 <=? n)%nat && (n <=? 57)%nat then Some (Z.of_nat (n - 48)) else None.

Fixpoint digits (acc : Z) (s : string) : option Z :=
  match s with
  | EmptyString => Some acc
  | String a s' =>
      match digit a with
      | Some d => digits (10 * acc + d) s'
      | None => None
      end
  end.

Definition sample_convert (t : opt_type) (s : string) : option value :=
  match t with
  | TStr => Some (VStr s)
  | TInt => match s with
            | EmptyString => None
            | _ => VInt <$> digits 0 s
            end
  | TBool => None
  end.

(** [doit --continue -n 4 --no-continue] *)
Definition sample_argv : list string :=
  ["--continue"; "-n"; "4"; "--no-continue"].

Definition sample_events : list event :=
  [mkEvent 0 opt_continue Direct None;
   mkEvent 1 opt_num_process Direct (Some "4");
   mkEvent 3 opt_continue Inverse None].

Definition sample_params : ParamSet :=
  match parse sample_convert (set_options Run) sample_argv with
  | inr (p, _) => p
  | inl _ => mkParamSet ∅ ∅
  end.

Definition sample_config : gmap string value :=
  {[ "default_tasks" := VList ["build"];
     "verbosity" := VInt 2;
     "continue" := VBool true ]}.

Section Doit.

(** The tasks of the manifest are opaque to the command line driver. *)
Context {Task : Type}.

(** The functions imported from [cmd_run], [cmd_clean], [cmd_list],
    [cmd_forget], [cmd_ignore] and [cmd_auto]. *)
Inductive executor : Type :=
  doit_run | doit_clean | doit_list | doit_forget | doit_ignore | doit_auto.

(** An argument passed to an executor. *)
Inductive earg : Type :=
| AVal (v : value)
| ATasks (l : list Task).

(** What the driver does to the outside world. *)
Inductive effect : Type :=
| PrintVersion
| PrintUsage
| PrintTaskHelp
| PrintCmdHelp (c : cmd_class)
| ResetVars
| SetVar (name val : string)
| GetTasks (dodoFile cwdPath seek_file : value) (cmd_names : gset string)
| Execute (f : executor) (args : list earg)
| StderrWrite (s : string)
| StderrTraceback (e : exn).

(** The dictionary [loader.get_tasks] returns. *)
Record dodo_tasks : Type := mkDodo {
  dodo_task_list : list Task;
  dodo_config : gmap string value
}.

(** The attributes [read_dodo] sets on the command object. *)
Record cmd_state : Type := mkState {
  task_list : list Task;
  config : gmap string value;
  sel_tasks : value
}.

(** The loader and the executors of the sample: the manifest declares
    [sample_config] (its tasks are left out) and every executor
    succeeds. *)
Definition sample_get_tasks (h : list effect)
    (dodoFile cwdPath seek_file : value) (names : gset string)
  : exn + dodo_tasks :=
  inr (mkDodo [] sample_config).

Definition sample_executor (h : list effect) (f : executor)
    (args : list earg) : exn + Z :=
  inr 0%Z.

(** A loader that finds no manifest. *)
Definition failing_get_tasks (h : list effect)
    (dodoFile cwdPath seek_file : value) (names : gset string)
  : exn + dodo_tasks :=
  inl (InvalidDodoFile "no dodo file").

(** The collaborators outside the driver: the loader and the executors,
    which see the history, where the variables recorded by [cmd_main] are,
    and the conversion of an option's text. *)
Variable get_tasks :
  list effect -> value -> value -> value -> gset string -> exn + dodo_tasks.
Variable call_executor : list effect -> executor -> list earg -> exn + Z.
Variable convert : opt_type -> string -> option value.

(** [params[key]]. *)
Definition get_item (params : Params) (key : string) : M effect value :=
  match items (pset params) !! key with
  | Some v => mret v
  | None => raise (KeyError key)
  end.

(** [config.get('default_tasks')]. *)
Definition get_default_tasks (config : gmap string value) : value :=
  default VNone (config !! "default_tasks").

(** [DoitCmdBase.read_dodo]. *)
Definition read_dodo (params : Params) (args : list string)
  : M effect (Params * cmd_state) :=
  dodoFile ← get_item params "dodoFile";
  cwdPath ← get_item params "cwdPath";
  seek_file ← get_item params "seek_file";
  let names := dom (sub params) in
  dodo ← external (GetTasks dodoFile cwdPath seek_file names)
                  (fun h => get_tasks h dodoFile cwdPath seek_file names);
  let config := dodo_config dodo in
  let params' := mkParams (update_defaults (pset params) config) (sub params) in
  let sel := match args with
             | [] => get_default_tasks config
             | _ => VList args
             end in
  mret (params', mkState (dodo_task_list dodo) config sel).

Definition run_executor (f : executor) (args : list earg) : M effect Z :=
  external (Execute f args) (fun h => call_executor h f args).

(** [Help.execute]. *)
Definition Help_execute (params : Params) (args : list string) : M effect Z :=
  match args with
  | [a] =>
      match sub params !! a with
      | Some c => emit (PrintCmdHelp c);; mret 0%Z
      | None =>
          if String.eqb a "task" then emit PrintTaskHelp;; mret 0%Z
          else emit PrintUsage;; mret 0%Z
      end
  | _ => emit PrintUsage;; mret 0%Z
  end.

(** The [execute] method of each command. *)
Definition execute (c : cmd_class) (params : Params) (args : list string)
  : M effect Z :=
  match c with
  | Help => Help_execute params args
  | Run =>
      '(params, self) ← read_dodo params args;
      dep_file ← get_item params "dep_file";
      outfile ← get_item params "outfile";
      verbosity ← get_item params "verbosity";
      always ← get_item params "always";
      continue ← get_item params "continue";
      reporter ← get_item params "reporter";
      num_process ← get_item params "num_process";
      run_executor doit_run
        [AVal dep_file; ATasks (task_list self); AVal outfile;
         AVal (sel_tasks self); AVal verbosity; AVal always;
         AVal continue; AVal reporter; AVal num_process]
  | List =>
      '(params, self) ← read_dodo params args;
      dep_file ← get_item params "dep_file";
      all ← get_item params "all";
      quiet ← get_item params "quiet";
      status ← get_item params "status";
      private ← get_item params "private";
      list_deps ← get_item params "list_deps";
      run_executor doit_list
        [AVal dep_file; ATasks (task_list self); AVal VStdout;
         AVal (VList args); AVal all; AVal (VBool (negb (truthy quiet)));
         AVal status; AVal private; AVal list_deps]
  | Clean =>
      '(params, self) ← read_dodo params args;
      let default_tasks := get_default_tasks (config self) in
      let selected_tasks := VList args in
      dryrun ← get_item params "dryrun";
      cleandep ← get_item params "cleandep";
      cleanall ← get_item params "cleanall";
      run_executor doit_clean
        [ATasks (task_list self); AVal VStdout; AVal dryrun; AVal cleandep;
         AVal cleanall; AVal default_tasks; AVal selected_tasks]
  | Forget =>
      '(params, self) ← read_dodo params args;
      dep_file ← get_item params "dep_file";
      run_executor doit_forget
        [AVal dep_file; ATasks (task_list self); AVal VStdout;
         AVal (sel_tasks self)]
  | Ignore =>
      '(params, self) ← read_dodo params args;
      dep_file ← get_item params "dep_file";
      run_executor doit_ignore
        [AVal dep_file; ATasks (task_list self); AVal VStdout;
         AVal (VList args)]
  | Auto =>
      '(params, self) ← read_dodo params args;
      dep_file ← get_item params "dep_file";
      verbosity ← get_item params "verbosity";
      run_executor doit_auto
        [AVal dep_file; ATasks (task_list self); AVal (sel_tasks self);
         AVal verbosity]
  end.

(** Modelled from the spec: [Command.parse_execute] of the missing
    [cmd_base.py] parses the arguments against the command's options,
    injects the registry and returns the result of [execute]. *)
Definition parse_execute (c : cmd_class) (in_args : list string)
    (sub_cmd : gmap string cmd_class) : M effect Z :=
  '(p, args) ← lift_exn (parse convert (set_options c) in_args);
  execute c (mkParams p sub_cmd) args.

(** ** The dispatcher *)

(** The body of the loop over [cmd_args]: [arg[0]] raises on the empty
    string before ['=' in arg] is looked at. *)
Definition scan_step (args_no_vars : list string) (arg : string)
  : M effect (list string) :=
  match first_char arg with
  | None => raise (IndexError "string index out of range")
  | Some c =>
      if negb (Ascii.eqb c "-") && contains "=" arg then
        let '(name, val, _) := split_first "=" arg in
        emit (SetVar name val);; mret args_no_vars
      else mret (args_no_vars ++ [arg])
  end.

Fixpoint scan_vars (cmd_args : list string) (args_no_vars : list string)
  : M effect (list string) :=
  match cmd_args with
  | [] => mret args_no_vars
  | arg :: rest =>
      args_no_vars' ← scan_step args_no_vars arg;
      scan_vars rest args_no_vars'
  end.

(** The choice of the sub-command: the name and what is left of
    [args_no_vars] after [pop(0)]. *)
Definition select_command (sub_cmd : gmap string cmd_class)
    (args_no_vars : list string) : string * list string :=
  match args_no_vars with
  | [] => ("run", args_no_vars)
  | a :: rest =>
      if bool_decide (a ∈ dom sub_cmd) then (a, rest)
      else ("run", args_no_vars)
  end.

(** The two [except] clauses of [cmd_main]. *)
Definition handle_error (err : exn) : M effect Z :=
  match user_error err with
  | Some msg => emit (StderrWrite ("ERROR: " +:+ msg +:+ "
"));; mret 3%Z
  | None => emit (StderrTraceback err);; mret 3%Z
  end.

(** [sub_cmd[command].parse_execute(args_no_vars, sub=sub_cmd)]. *)
Definition run_command (sub_cmd : gmap string cmd_class) (command : string)
    (args_no_vars : list string) : M effect Z :=
  match sub_cmd !! command with
  | None => raise (KeyError command)
  | Some c => parse_execute c args_no_vars sub_cmd
  end.

(** [cmd_main] after the special parameters. *)
Definition dispatch (cmd_args : list string) : M effect Z :=
  let sub_cmd := build_registry DOIT_BUILTIN_CMDS in
  emit ResetVars;;
  args_no_vars ← scan_vars cmd_args [];
  let '(command, args_no_vars) := select_command sub_cmd args_no_vars in
  try_except (run_command sub_cmd command args_no_vars) handle_error.

Definition cmd_main (cmd_args : list string) : M effect Z :=
  match cmd_args with
  | first :: _ =>
      if String.eqb first "--version" then emit PrintVersion;; mret 0%Z
      else if String.eqb first "--help" then emit PrintUsage;; mret 0%Z
      else dispatch cmd_args
  | [] => dispatch cmd_args
  end.

(** ** Notions used in the statements *)

(** The test of the loop of [cmd_main] on a token that has a first
    character: it does not start with [-] and contains [=]. *)
Definition is_var (arg : string) : bool :=
  match first_char arg with
  | Some c => negb (Ascii.eqb c "-") && contains "=" arg
  | None => false
  end.

(** The call [doit.set_var(name, value)] for a variable token. *)
Definition var_call (arg : string) : effect :=
  let '(name, val, _) := split_first "=" arg in SetVar name val.

(** The tokens of a list that are variable assignments, and the others,
    each in the order of the list. *)
Definition var_tokens (cmd_args : list string) : list string :=
  List.filter is_var cmd_args.

Definition kept_tokens (cmd_args : list string) : list string :=
  List.filter (fun a => negb (is_var a)) cmd_args.

(** A print of [Help]: usage, the task reference or a command's help. *)
Definition is_help_print (ev : effect) : Prop :=
  match ev with
  | PrintUsage | PrintTaskHelp | PrintCmdHelp _ => True
  | _ => False
  end.

(** The option [n] was explicitly supplied: some occurrence is of it. *)
Definition supplied (n : string) (evs : list event) : Prop :=
  exists e, e ∈ evs /\ opt_name (ev_opt e) = n.

(** The flag ([Direct]) or the inverse flag ([Inverse]) of the option [n]
    occurs at index [i] of argv. *)
Definition occurs (n : string) (pol : polarity) (evs : list event)
    (i : nat) : Prop :=
  exists e, e ∈ evs /\ ev_pos e = i /\ opt_name (ev_opt e) = n /\
            ev_pol e = pol.

(** The [_execute] attribute of the subclasses of [DoitCmdBase]. *)
Definition cmd_executor (c : cmd_class) : option executor :=
  match c with
  | Help => None
  | Run => Some doit_run
  | List => Some doit_list
  | Clean => Some doit_clean
  | Forget => Some doit_forget
  | Ignore => Some doit_ignore
  | Auto => Some doit_auto
  end.

(** The first test of [cmd_main]: argv starts with [--version] or
    [--help]. *)
Definition special_first (cmd_args : list string) : bool :=
  match cmd_args with
  | first :: _ => String.eqb first "--version" || String.eqb first "--help"
  | [] => false
  end.

(** The effects by kind. *)
Definition is_loader_call (ev : effect) : Prop :=
  match ev with GetTasks _ _ _ _ => True | _ => False end.

Definition is_executor_call (ev : effect) : Prop :=
  match ev with Execute _ _ => True | _ => False end.

Definition is_stderr (ev : effect) : Prop :=
  match ev with StderrWrite _ | StderrTraceback _ => True | _ => False end.

(** What [cmd_main] writes to the error stream for an exception of the
    command. *)
Definition error_report (err : exn) : effect :=
  match user_error err with
  | Some msg => StderrWrite ("ERROR: " +:+ msg +:+ "
")
  | None => StderrTraceback err
  end.

Definition is_set_var (ev : effect) : Prop :=
  match ev with SetVar _ _ => True | _ => False end.

(** The effects of a command run at the history [h], from the parsing of
    its arguments on, with its outcome: none and an exception; the print
    of [Help]; the call of the loader and the exception it raised, or the
    [KeyError] of an option missing afterwards; the calls of the loader,
    which returned, and of the executor, with the outcome of the
    executor. *)
Definition command_shape (sub_cmds : gmap string cmd_class)
    (h t : list effect) (r : exn + Z) : Prop :=
  (t = [] /\ exists e, r = inl e) \/
  (exists ev, t = [ev] /\ is_help_print ev /\ r = inr 0%Z) \/
  (exists dodoFile cwdPath seek_file e,
     t = [GetTasks dodoFile cwdPath seek_file (dom sub_cmds)] /\
     r = inl e /\
     match get_tasks h dodoFile cwdPath seek_file (dom sub_cmds) with
     | inl e' => e = e'
     | inr _ => exists k, e = KeyError k
     end) \/
  (exists dodoFile cwdPath seek_file dodo f eargs,
     let g := GetTasks dodoFile cwdPath seek_file (dom sub_cmds) in
     t = [g; Execute f eargs] /\
     get_tasks h dodoFile cwdPath seek_file (dom sub_cmds) = inr dodo /\
     r = call_executor (h ++ [g]) f eargs).

(** * Properties *)

(** ** The registry *)

(** The registry [cmd_main] builds. *)
Abbreviation sub_cmd := (build_registry DOIT_BUILTIN_CMDS).

Lemma build_registry_names (cmds : list cmd_class) (a : string)
    (c : cmd_class) :
  build_registry cmds !! a = Some c -> cmd_name c = a.
Proof.
  unfold build_registry.
  assert (G : forall (m : gmap string cmd_class),
             (forall a c, m !! a = Some c -> cmd_name c = a) ->
             forall a c, foldl (fun m c => <[cmd_name c := c]> m) m cmds !! a
                         = Some c -> cmd_name c = a).
  { induction cmds as [|c0 cmds IH]; intros m Hm a' c'; cbn; [apply Hm|].
    apply IH. intros a1 c1.
    destruct (decide (cmd_name c0 = a1)) as [<-|Hne].
    - rewrite lookup_insert_eq. by intros [= ->].
    - rewrite lookup_insert_ne by done. apply Hm. }
  apply G. intros a' c'. rewrite lookup_empty. discriminate.
Qed.

Lemma sub_cmd_lookup (c : cmd_class) : sub_cmd !! cmd_name c = Some c.
Proof. destruct c; reflexivity. Qed.

Lemma sub_cmd_lookup_None (a : string) :
  (forall c, a <> cmd_name c) -> sub_cmd !! a = None.
Proof.
  intros Hn. destruct (sub_cmd !! a) as [c|] eqn:E; [|done].
  apply build_registry_names in E. exfalso. by apply (Hn c).
Qed.

(** ** Strings *)

Lemma contains_split_first (c : ascii) (s : string) :
  contains c s = (split_first c s).2.
Proof.
  induction s as [|a s IH]; cbn; [done|].
  destruct (Ascii.eqb a c); [done|].
  rewrite IH. by destruct (split_first c s) as [[l r] f].
Qed.

(** [split('=', 1)] cuts at the first separator: the name holds none, and
    name, separator and value make up the token. *)
Lemma split_first_spec (c : ascii) (s l r : string) :
  split_first c s = (l, r, true) ->
  s = l +:+ String c r /\ contains c l = false.
Proof.
  revert l r. induction s as [|a s IH]; intros l r; cbn; [done|].
  destruct (Ascii.eqb a c) eqn:E.
  - apply Ascii.eqb_eq in E as ->. by intros [= <- <-].
  - destruct (split_first c s) as [[l' r'] f] eqn:Es.
    intros [= <- <- ->]. destruct (IH l' r' eq_refl) as [-> Hl].
    cbn. by rewrite E.
Qed.

(** ** The scan for variables *)

Lemma scan_step_nonempty (acc : list string) (arg : string)
    (h : list effect) :
  arg <> "" ->
  scan_step acc arg h =
    if is_var arg then (h ++ [var_call arg], inr acc)
    else (h, inr (acc ++ [arg])).
Proof.
  intros Hne. unfold scan_step, is_var, var_call.
  destruct arg as [|c arg]; [done|]. cbn [first_char].
  destruct (negb (Ascii.eqb c "-") && contains "=" (String c arg)); [|done].
  by destruct (split_first "=" (String c arg)) as [[name val] f].
Qed.

Lemma scan_step_empty (acc : list string) (h : list effect) :
  scan_step acc "" h = (h, inl (IndexError "string index out of range")).
Proof. reflexivity. Qed.

(** On tokens that all have a first character the loop records the
    variable tokens and keeps the others, both in argv order. *)
Lemma scan_vars_nonempty (cmd_args acc : list string) (h : list effect) :
  Forall (fun a => a <> "") cmd_args ->
  scan_vars cmd_args acc h =
    (h ++ (var_call <$> var_tokens cmd_args),
     inr (acc ++ kept_tokens cmd_args)).
Proof.
  intros HF. revert acc h.
  induction HF as [|arg rest Hne _ IH]; intros acc h; cbn.
  - by rewrite !app_nil_r.
  - unfold_M. rewrite scan_step_nonempty by done.
    unfold var_tokens, kept_tokens in *. cbn.
    destruct (is_var arg); cbn; rewrite IH.
    + by rewrite <- app_assoc.
    + by rewrite <- app_assoc.
Qed.

(** The loop completes only on such tokens. *)
Lemma scan_vars_returns (cmd_args acc args : list string)
    (h h' : list effect) :
  scan_vars cmd_args acc h = (h', inr args) ->
  Forall (fun a => a <> "") cmd_args.
Proof.
  revert acc h. induction cmd_args as [|arg rest IH]; intros acc h; cbn.
  - constructor.
  - unfold_M. destruct arg as [|c arg].
    + rewrite scan_step_empty. discriminate.
    + destruct (scan_step acc (String c arg) h) as [h1 [e|acc1]] eqn:E;
        [discriminate|].
      intros Hs. constructor; [done|]. by eapply IH.
Qed.

Lemma scan_vars_inv (cmd_args acc args : list string) (h h' : list effect) :
  scan_vars cmd_args acc h = (h', inr args) ->
  h' = h ++ (var_call <$> var_tokens cmd_args) /\
  args = acc ++ kept_tokens cmd_args.
Proof.
  intros Hs. pose proof (scan_vars_returns _ _ _ _ _ Hs) as HF.
  rewrite (scan_vars_nonempty _ acc h HF) in Hs. by inversion Hs.
Qed.

(** ** The special parameters *)

(** C7. When the first token of argv is [--version] or [--help],
    [cmd_main] prints the version or the usage and returns 0, whatever
    the tokens after it: that print is its only effect, so the variables
    are not reset or set, no command is chosen and none is executed. *)
Theorem cmd_main_version_help (rest : list string) (h : list effect) :
  cmd_main ("--version" :: rest) h = (h ++ [PrintVersion], inr 0%Z) /\
  cmd_main ("--help" :: rest) h = (h ++ [PrintUsage], inr 0%Z).
Proof. split; reflexivity. Qed.

(** ** The choice of the command *)

Lemma select_command_cases (args : list string) :
  select_command sub_cmd args = ("run", args) /\
    (args = [] \/ exists a rest, args = a :: rest /\ a ∉ dom sub_cmd)
  \/ exists a rest, args = a :: rest /\ a ∈ dom sub_cmd /\
       select_command sub_cmd args = (a, rest).
Proof.
  destruct args as [|a rest]; [left; split; [done|by left]|].
  unfold select_command. case_bool_decide as Ha.
  - right. by exists a, rest.
  - left. split; [done|]. right. by exists a, rest.
Qed.

Lemma dispatch_unfold (cmd_args args : list string) (h h' : list effect) :
  scan_vars cmd_args [] (h ++ [ResetVars]) = (h', inr args) ->
  dispatch cmd_args h =
    try_except (run_command sub_cmd (select_command sub_cmd args).1
                            (select_command sub_cmd args).2)
               handle_error h'.
Proof.
  intros Hs. unfold dispatch. unfold_M. rewrite Hs.
  by destruct (select_command sub_cmd args) as [command args'].
Qed.

(** C3. After the variables are taken out, an empty list or a list whose
    first token is not a registered name makes the command ["run"], which
    receives the whole list; a first token that is a registered name is
    popped and names the command, which receives the rest. *)
Theorem command_resolution (cmd_args args : list string)
    (h h' : list effect) :
  scan_vars cmd_args [] (h ++ [ResetVars]) = (h', inr args) ->
  (args = [] \/ (exists a rest, args = a :: rest /\ a ∉ dom sub_cmd) ->
   select_command sub_cmd args = ("run", args) /\
   dispatch cmd_args h =
     try_except (parse_execute Run args sub_cmd) handle_error h') /\
  (forall a rest, args = a :: rest -> a ∈ dom sub_cmd ->
   select_command sub_cmd args = (a, rest) /\
   exists c, cmd_name c = a /\
     dispatch cmd_args h =
       try_except (parse_execute c rest sub_cmd) handle_error h').
Proof.
  intros Hs. rewrite (dispatch_unfold _ _ _ _ Hs). split.
  - intros Hrun.
    assert (E : select_command sub_cmd args = ("run", args)).
    { destruct Hrun as [->|(a & rest & -> & Ha)]; [done|].
      unfold select_command. by rewrite bool_decide_eq_false_2. }
    by rewrite E.
  - intros a rest -> Ha.
    assert (E : select_command sub_cmd (a :: rest) = (a, rest)).
    { unfold select_command. by rewrite bool_decide_eq_true_2. }
    rewrite E. split; [done|].
    apply elem_of_dom in Ha as [c Hc]. exists c.
    split; [by apply build_registry_names in Hc|].
    cbn [fst snd]. unfold run_command. by rewrite Hc.
Qed.

(** C9. The name [cmd_main] chooses is always a key of the registry built
    from [DOIT_BUILTIN_CMDS]: ["run"] is one, and a token is popped as the
    name only when it is one; so [sub_cmd[command]] finds a command and
    its [parse_execute] is what runs. *)
Theorem command_always_registered (args : list string) :
  sub_cmd !! "run" = Some Run /\
  (select_command sub_cmd args = ("run", args) \/
   exists a rest, args = a :: rest /\ a ∈ dom sub_cmd /\
     select_command sub_cmd args = (a, rest)) /\
  exists c, sub_cmd !! (select_command sub_cmd args).1 = Some c /\
    run_command sub_cmd (select_command sub_cmd args).1
                (select_command sub_cmd args).2 =
    parse_execute c (select_command sub_cmd args).2 sub_cmd.
Proof.
  split; [reflexivity|].
  destruct (select_command_cases args) as [[E _]|(a & rest & -> & Ha & E)].
  - split; [by left|]. rewrite E. exists Run. by split.
  - split; [right; by exists a, rest|]. rewrite E.
    apply elem_of_dom in Ha as [c Hc]. exists c. split; [done|].
    cbn [fst snd]. unfold run_command. by rewrite Hc.
Qed.

(** ** Help *)

(** C6. [Help.execute] returns 0 on every input and its only effect is one
    print, so the loader is never called. With the registry [cmd_main]
    passes: one argument that is a command's name prints that command's
    help, the one argument [task] prints the task reference, and no
    argument, more than one, or any other single argument prints the
    usage. *)
Theorem Help_execute_spec (params : Params) (args : list string)
    (h : list effect) :
  (exists ev, is_help_print ev /\
     Help_execute params args h = (h ++ [ev], inr 0%Z)) /\
  (sub params = sub_cmd ->
   (forall c, args = [cmd_name c] ->
      Help_execute params args h = (h ++ [PrintCmdHelp c], inr 0%Z)) /\
   (args = ["task"] ->
      Help_execute params args h = (h ++ [PrintTaskHelp], inr 0%Z)) /\
   (length args <> 1 \/
    (exists a, args = [a] /\ a <> "task" /\ forall c, a <> cmd_name c) ->
      Help_execute params args h = (h ++ [PrintUsage], inr 0%Z))).
Proof.
  split.
  - unfold Help_execute.
    destruct args as [|a [|b rest]];
      [by exists PrintUsage| |by exists PrintUsage].
    destruct (sub params !! a) as [c|]; [by exists (PrintCmdHelp c)|].
    destruct (String.eqb a "task");
      [by exists PrintTaskHelp|by exists PrintUsage].
  - intros Hsub. repeat split.
    + intros c ->. unfold Help_execute. by rewrite Hsub, sub_cmd_lookup.
    + intros ->. unfold Help_execute. by rewrite Hsub.
    + intros [Hlen|(a & -> & Ht & Hc)]; unfold Help_execute.
      * by destruct args as [|a [|b rest]].
      * rewrite Hsub, sub_cmd_lookup_None by done.
        apply String.eqb_neq in Ht. by rewrite Ht.
Qed.

(** The same for any registry passed under ['sub']: a registered name has
    precedence over the literal [task]. *)
Lemma Help_execute_any_registry (params : Params) (a : string)
    (h : list effect) :
  Help_execute params [a] h =
    match sub params !! a with
    | Some c => (h ++ [PrintCmdHelp c], inr 0%Z)
    | None => if String.eqb a "task" then (h ++ [PrintTaskHelp], inr 0%Z)
              else (h ++ [PrintUsage], inr 0%Z)
    end.
Proof.
  unfold Help_execute. destruct (sub params !! a); [done|].
  by destruct (String.eqb a "task").
Qed.

(** ** Variables *)

Lemma is_var_leading_eq (rest : string) : is_var (String "=" rest) = true.
Proof. reflexivity. Qed.

Lemma var_call_leading_eq (rest : string) :
  var_call (String "=" rest) = SetVar "" rest.
Proof. reflexivity. Qed.

(** C10. A token whose first character is [=] is taken as a variable with
    the empty name: the loop body calls [set_var("", rest)] with the text
    after that [=] and does not append the token; in a completed scan the
    call is among those made and the token is not among the arguments
    forwarded. *)
Theorem empty_name_variable (rest : string) :
  (forall (acc : list string) (h : list effect),
     scan_step acc (String "=" rest) h = (h ++ [SetVar "" rest], inr acc)) /\
  (forall (cmd_args args : list string) (h h' : list effect),
     scan_vars cmd_args [] h = (h', inr args) ->
     In (String "=" rest) cmd_args ->
     (exists calls, h' = h ++ calls /\ In (SetVar "" rest) calls) /\
     ~ In (String "=" rest) args).
Proof.
  split; [reflexivity|].
  intros cmd_args args h h' Hs Hin.
  apply scan_vars_inv in Hs as [-> ->]. split.
  - eexists. split; [reflexivity|].
    rewrite <- (var_call_leading_eq rest). apply in_map.
    unfold var_tokens. apply filter_In. by split.
  - cbn. unfold kept_tokens. rewrite filter_In.
    rewrite is_var_leading_eq. by intros [_ ?].
Qed.

(** The loop stops with [IndexError] at the first empty token: the
    variables before it have been recorded, nothing after it is looked
    at, and no argument list results. *)
Lemma scan_vars_empty_token (before after acc : list string)
    (h : list effect) :
  Forall (fun a => a <> "") before ->
  scan_vars (before ++ "" :: after) acc h =
    (h ++ (var_call <$> var_tokens before),
     inl (IndexError "string index out of range")).
Proof.
  intros HF. revert acc h.
  induction HF as [|arg rest Hne _ IH]; intros acc h; cbn.
  - unfold_M. by rewrite app_nil_r.
  - unfold_M. rewrite scan_step_nonempty by done.
    unfold var_tokens in *. cbn.
    destruct (is_var arg); cbn; rewrite IH; [|done].
    by rewrite <- app_assoc.
Qed.

(** C2, at an argv with an empty token: the scan raises [IndexError] at
    the empty token, and [cmd_main] with it; the variable token after it
    is not recorded and no token is kept for command parsing. *)
Theorem scan_vars_raises_on_empty_token (h : list effect) :
  scan_vars [""; "a=b"; "x"] [] h =
    (h, inl (IndexError "string index out of range")) /\
  cmd_main [""; "a=b"; "x"] h =
    (h ++ [ResetVars], inl (IndexError "string index out of range")).
Proof. split; reflexivity. Qed.

(** ** Errors *)

(** What the two [except] clauses do with the outcome of the command. *)
Lemma try_except_handle_error (m : M effect Z) (h : list effect) :
  try_except m handle_error h =
    match m h with
    | (h1, inr z) => (h1, inr z)
    | (h1, inl err) =>
        (h1 ++ [match user_error err with
                | Some msg => StderrWrite ("ERROR: " +:+ msg +:+ "
")
                | None => StderrTraceback err
                end], inr 3%Z)
    end.
Proof.
  unfold try_except. destruct (m h) as [h1 [err|z]]; [|done].
  unfold handle_error. by destruct (user_error err).
Qed.


(** C4, at the argv of one empty token: the [IndexError] of [arg[0]] is
    raised in the scan for variables, before the [try] statement, and
    leaves [cmd_main] uncaught; nothing is written to the error stream
    and no exit code is returned. *)
Theorem cmd_main_propagates_IndexError (h : list effect) :
  cmd_main [""] h =
    (h ++ [ResetVars], inl (IndexError "string index out of range")).
Proof. reflexivity. Qed.

(** ** The selection of tasks *)

(** C8. [read_dodo] asks the loader for the manifest and sets the
    selection to the positional arguments when there are some, and to the
    ['default_tasks'] entry of the manifest's configuration ([None] when
    it has none) when there are none. *)
Theorem read_dodo_selection (params : Params) (args : list string)
    (h : list effect) (dodoFile cwdPath seek_file : value)
    (dodo : dodo_tasks) :
  items (pset params) !! "dodoFile" = Some dodoFile ->
  items (pset params) !! "cwdPath" = Some cwdPath ->
  items (pset params) !! "seek_file" = Some seek_file ->
  get_tasks h dodoFile cwdPath seek_file (dom (sub params)) = inr dodo ->
  exists params' self,
    read_dodo params args h =
      (h ++ [GetTasks dodoFile cwdPath seek_file (dom (sub params))],
       inr (params', self)) /\
    task_list self = dodo_task_list dodo /\
    config self = dodo_config dodo /\
    (args <> [] -> sel_tasks self = VList args) /\
    (args = [] ->
     sel_tasks self = default VNone (dodo_config dodo !! "default_tasks")).
Proof.
  intros H1 H2 H3 Hl. unfold read_dodo, get_item. unfold_M.
  rewrite H1, H2, H3, Hl. do 2 eexists. split; [reflexivity|].
  cbn. repeat split; [by destruct args|by intros ->].
Qed.

(** ** The option parser *)

Lemma find_long_elem (opts : list OptionSpec) (flag : string)
    (o : OptionSpec) (pol : polarity) :
  find_long opts flag = Some (o, pol) -> o ∈ opts.
Proof.
  induction opts as [|o0 opts IH]; cbn; [done|].
  destruct (String.eqb (opt_long o0) flag).
  { intros [= <- _]. left. }
  destruct (is_bool (opt_ty o0) && bool_decide (opt_inverse o0 = Some flag)).
  { intros [= <- _]. left. }
  intros H. right. by apply IH.
Qed.

Lemma find_short_elem (opts : list OptionSpec) (flag : string)
    (o : OptionSpec) :
  find_short opts flag = Some o -> o ∈ opts.
Proof.
  induction opts as [|o0 opts IH]; cbn; [done|].
  destruct (String.eqb (opt_short o0) flag && (String.length flag =? 1)%nat).
  { intros [= <-]. left. }
  intros H. right. by apply IH.
Qed.

Lemma resolve_long_elem (opts : list OptionSpec) (body : string)
    (o : OptionSpec) (pol : polarity) (arg : option string) :
  resolve_long opts body = RFlag o pol arg -> o ∈ opts.
Proof.
  unfold resolve_long.
  destruct (split_first "=" body) as [[flag a] found].
  destruct (find_long opts flag) as [[o' pol']|] eqn:E; [|done].
  intros [= <- _ _]. by eapply find_long_elem.
Qed.

Lemma resolve_short_elem (opts : list OptionSpec) (body : string)
    (o : OptionSpec) (pol : polarity) (arg : option string) :
  resolve_short opts body = RFlag o pol arg -> o ∈ opts.
Proof.
  unfold resolve_short.
  destruct (find_short opts body) as [o'|] eqn:E; [|done].
  intros [= <- _ _]. by eapply find_short_elem.
Qed.

Lemma resolve_elem (opts : list OptionSpec) (tok : string) (o : OptionSpec)
    (pol : polarity) (arg : option string) :
  resolve opts tok = RFlag o pol arg -> o ∈ opts.
Proof.
  unfold resolve. destruct tok as [|c rest]; [done|].
  destruct (Ascii.eqb c "-"); [|done].
  destruct rest as [|c' body]; [apply resolve_short_elem|].
  destruct (Ascii.eqb c' "-");
    [apply resolve_long_elem|apply resolve_short_elem].
Qed.

(** Induction on a successful scan: a positional token, a flag that
    stands in one token, a flag followed by its value. *)
Lemma tokenize_success_ind (opts : list OptionSpec)
    (P : nat -> list string -> list event -> list string -> Prop) :
  (forall i, P i [] [] []) ->
  (forall i tok rest evs pos,
     resolve opts tok = RPos ->
     tokenize opts (S i) rest = inr (evs, pos) ->
     P (S i) rest evs pos ->
     P i (tok :: rest) evs (tok :: pos)) ->
  (forall i tok rest o pol arg evs pos,
     resolve opts tok = RFlag o pol arg ->
     is_bool (opt_ty o) = negb (bool_decide (is_Some arg)) ->
     tokenize opts (S i) rest = inr (evs, pos) ->
     P (S i) rest evs pos ->
     P i (tok :: rest) (mkEvent i o pol arg :: evs) pos) ->
  (forall i tok a rest o pol evs pos,
     resolve opts tok = RFlag o pol None ->
     is_bool (opt_ty o) = false ->
     tokenize opts (S (S i)) rest = inr (evs, pos) ->
     P (S (S i)) rest evs pos ->
     P i (tok :: a :: rest) (mkEvent i o pol (Some a) :: evs) pos) ->
  forall i argv evs pos,
    tokenize opts i argv = inr (evs, pos) -> P i argv evs pos.
Proof.
  intros Hnil Hpos Hone Htwo i argv.
  remember (length argv) as n eqn:Hn. revert i argv Hn.
  induction n as [n IH] using lt_wf_ind. intros i argv Hn evs pos.
  destruct argv as [|tok rest]; cbn.
  { intros [= <- <-]. apply Hnil. }
  cbn in Hn.
  destruct (resolve opts tok) as [| |o pol arg] eqn:Er; [| done |].
  - unfold_M.
    destruct (tokenize opts (S i) rest) as [e|[evs' pos']] eqn:Et; [done|].
    intros [= <- <-]. apply Hpos; [done..|].
    eapply (IH (length rest)); [lia|done|done].
  - destruct (is_bool (opt_ty o)) eqn:Eb, arg as [a|]; [done| | |].
    + unfold_M.
      destruct (tokenize opts (S i) rest) as [e|[evs' pos']] eqn:Et; [done|].
      intros [= <- <-]. apply Hone; [done|by rewrite Eb|done|].
      eapply (IH (length rest)); [lia|done|done].
    + unfold_M.
      destruct (tokenize opts (S i) rest) as [e|[evs' pos']] eqn:Et; [done|].
      intros [= <- <-]. apply Hone; [done|by rewrite Eb|done|].
      eapply (IH (length rest)); [lia|done|done].
    + destruct rest as [|a rest']; [done|]. unfold_M.
      destruct (tokenize opts (S (S i)) rest') as [e|[evs' pos']] eqn:Et;
        [done|].
      intros [= <- <-]. apply Htwo; [done..|].
      eapply (IH (length rest')); [cbn in Hn; lia|done|done].
Qed.

(** Every occurrence is of an option of the command. *)
Lemma tokenize_opts (opts : list OptionSpec) (i : nat) (argv : list string)
    (evs : list event) (pos : list string) :
  tokenize opts i argv = inr (evs, pos) ->
  Forall (fun e => ev_opt e ∈ opts) evs.
Proof.
  revert i argv evs pos. apply tokenize_success_ind.
  - constructor.
  - done.
  - intros i tok rest o pol arg evs pos Hr _ _ IH. constructor; [|done].
    by eapply resolve_elem.
  - intros i tok a rest o pol evs pos Hr _ _ IH. constructor; [|done].
    by eapply resolve_elem.
Qed.

(** The occurrences come in argv order: their indices increase. *)
Lemma tokenize_sorted (opts : list OptionSpec) (i : nat)
    (argv : list string) (evs : list event) (pos : list string) :
  tokenize opts i argv = inr (evs, pos) ->
  Forall (fun e => i <= ev_pos e) evs /\
  StronglySorted (fun e1 e2 => ev_pos e1 < ev_pos e2) evs.
Proof.
  revert i argv evs pos. apply tokenize_success_ind.
  - split; constructor.
  - intros i tok rest evs pos _ _ [IH1 IH2]. split; [|done].
    eapply Forall_impl; [done|]. cbn. lia.
  - intros i tok rest o pol arg evs pos _ _ _ [IH1 IH2]. split.
    + constructor; [done|]. eapply Forall_impl; [done|]. cbn. lia.
    + constructor; [done|]. eapply Forall_impl; [done|]. cbn. lia.
  - intros i tok a rest o pol evs pos _ _ _ [IH1 IH2]. split.
    + constructor; [done|]. eapply Forall_impl; [done|]. cbn. lia.
    + constructor; [done|]. eapply Forall_impl; [done|]. cbn. lia.
Qed.

(** An occurrence at index [ev_pos e] is the flag token that stands
    there in argv. *)
Lemma tokenize_token (opts : list OptionSpec) (i : nat) (argv : list string)
    (evs : list event) (pos : list string) :
  tokenize opts i argv = inr (evs, pos) ->
  Forall (fun e => exists k tok arg,
            ev_pos e = i + k /\ argv !! k = Some tok /\
            resolve opts tok = RFlag (ev_opt e) (ev_pol e) arg) evs.
Proof.
  revert i argv evs pos. apply tokenize_success_ind.
  - constructor.
  - intros i tok rest evs pos _ _ IH.
    eapply Forall_impl; [done|]. cbn.
    intros e (k & tok' & arg & Hp & Hk & Hr).
    exists (S k), tok', arg. split; [lia|done].
  - intros i tok rest o pol arg evs pos Hr _ _ IH. constructor.
    + exists 0, tok, arg. cbn. split; [lia|done].
    + eapply Forall_impl; [done|]. cbn.
      intros e (k & tok' & arg' & Hp & Hk & Hr').
      exists (S k), tok', arg'. split; [lia|done].
  - intros i tok a rest o pol evs pos Hr _ _ IH. constructor.
    + exists 0, tok, None. cbn. split; [lia|done].
    + eapply Forall_impl; [done|]. cbn.
      intros e (k & tok' & arg' & Hp & Hk & Hr').
      exists (S (S k)), tok', arg'. split; [lia|done].
Qed.

(** ** The two passes over the ParamSet *)

Lemma apply_events_values (p0 p : ParamSet) (evs : list event) :
  apply_events convert p0 evs = inr p ->
  Forall (fun e => exists v, event_value convert e = inr v) evs.
Proof.
  revert p0. induction evs as [|e evs IH]; intros p0; cbn; [constructor|].
  unfold apply_event. unfold_M.
  destruct (event_value convert e) as [err|v] eqn:Ev; [done|].
  intros H. constructor; [by exists v|by eapply IH].
Qed.

(** After the command line pass an option holds the value of its last
    occurrence, or what it held before when it has none. *)
Lemma apply_events_lookup (p0 p : ParamSet) (evs : list event) (n : string) :
  apply_events convert p0 evs = inr p ->
  items p !! n =
    match cli_value convert n evs with
    | Some v => Some v
    | None => items p0 !! n
    end.
Proof.
  revert p0. induction evs as [|e evs IH]; intros p0; cbn.
  { by intros [= ->]. }
  unfold apply_event. unfold_M.
  destruct (event_value convert e) as [err|v] eqn:Ev; [done|].
  intros H. rewrite (IH _ H).
  destruct (cli_value convert n evs) as [v'|]; [done|]. cbn.
  destruct (String.eqb (opt_name (ev_opt e)) n) eqn:En.
  - apply String.eqb_eq in En as ->. by rewrite lookup_insert_eq.
  - apply String.eqb_neq in En. by rewrite lookup_insert_ne.
Qed.

(** The presence bits after the command line pass. *)
Lemma apply_events_explicit (p0 p : ParamSet) (evs : list event)
    (n : string) :
  apply_events convert p0 evs = inr p ->
  n ∈ explicit p <-> n ∈ explicit p0 \/ supplied n evs.
Proof.
  unfold supplied. revert p0.
  induction evs as [|e evs IH]; intros p0; cbn.
  { intros [= ->]. split; [by left|]. intros [?|(e & He & _)]; [done|].
    by apply elem_of_nil in He. }
  unfold apply_event. unfold_M.
  destruct (event_value convert e) as [err|v] eqn:Ev; [done|].
  intros H. rewrite (IH _ H). cbn. rewrite elem_of_union, elem_of_singleton.
  split.
  - intros [[->|?]|(e' & He' & Hn)]; [right; exists e|by left|right; exists e'].
    + split; [left|done].
    + split; [by right|done].
  - intros [?|(e' & He' & Hn)]; [left; by right|].
    apply elem_of_cons in He' as [->|He']; [left; by left|].
    right. by exists e'.
Qed.

Lemma cli_value_supplied (evs : list event) (n : string) :
  Forall (fun e => exists v, event_value convert e = inr v) evs ->
  supplied n evs <-> is_Some (cli_value convert n evs).
Proof.
  unfold supplied. induction 1 as [|e evs [v Hv] HF IH]; cbn.
  { split; [intros (e & He & _); by apply elem_of_nil in He|].
    by intros [? ?]. }
  destruct (cli_value convert n evs) as [v'|] eqn:Ec.
  - split; [by eexists|]. intros _.
    destruct (proj2 IH) as (e' & He' & Hn); [by eexists|].
    exists e'. split; [by right|done].
  - rewrite Hv. destruct (String.eqb (opt_name (ev_opt e)) n) eqn:En.
    + apply String.eqb_eq in En. split; [by eexists|]. intros _.
      exists e. split; [left|done].
    + apply String.eqb_neq in En. split; [|by intros [? ?]].
      intros (e' & He' & Hn). apply elem_of_cons in He' as [->|He'];
        [done|].
      apply IH. by exists e'.
Qed.

(** The value of the command line is that of the last occurrence. *)
Lemma cli_value_last (evs : list event) (n : string) (v : value) :
  Forall (fun e => exists v, event_value convert e = inr v) evs ->
  cli_value convert n evs = Some v ->
  exists evs1 e evs2,
    evs = evs1 ++ e :: evs2 /\ opt_name (ev_opt e) = n /\
    event_value convert e = inr v /\
    Forall (fun e' => opt_name (ev_opt e') <> n) evs2.
Proof.
  induction 1 as [|e evs [v0 Hv0] HF IH]; cbn; [done|].
  destruct (cli_value convert n evs) as [v'|] eqn:Ec.
  - intros [= ->]. destruct (IH eq_refl) as (evs1 & e' & evs2 & -> & H).
    by exists (e :: evs1), e', evs2.
  - destruct (String.eqb (opt_name (ev_opt e)) n) eqn:En; [|done].
    apply String.eqb_eq in En. rewrite Hv0. intros [= ->].
    exists [], e, evs. repeat split; [done..|].
    apply Forall_forall. intros e' He' Hn.
    assert (Hs : is_Some (cli_value convert n evs)).
    { apply cli_value_supplied; [done|]. by exists e'. }
    rewrite Ec in Hs. by destruct Hs.
Qed.

Lemma parse_inv (opts : list OptionSpec) (argv : list string)
    (evs : list event) (pos args : list string) (p : ParamSet) :
  tokenize opts 0 argv = inr (evs, pos) ->
  parse convert opts argv = inr (p, args) ->
  apply_events convert (defaults opts) evs = inr p /\ args = pos.
Proof.
  intros Ht. unfold parse. unfold_M. rewrite Ht.
  destruct (apply_events convert (defaults opts) evs) as [err|p']; [done|].
  by intros [= -> ->].
Qed.

(** The last occurrence of an option that was supplied: every other
    occurrence of it stands at a smaller index. *)
Lemma last_occurrence (opts : list OptionSpec) (argv : list string)
    (evs : list event) (pos : list string) (p : ParamSet) (n : string) :
  tokenize opts 0 argv = inr (evs, pos) ->
  apply_events convert (defaults opts) evs = inr p ->
  supplied n evs ->
  exists e v,
    e ∈ evs /\ opt_name (ev_opt e) = n /\ event_value convert e = inr v /\
    cli_value convert n evs = Some v /\ items p !! n = Some v /\
    forall e', e' ∈ evs -> opt_name (ev_opt e') = n ->
               e' = e \/ ev_pos e' < ev_pos e.
Proof.
  intros Ht Ha Hs.
  pose proof (apply_events_values _ _ _ Ha) as HF.
  apply (cli_value_supplied _ _ HF) in Hs as [v Hv].
  destruct (cli_value_last _ _ _ HF Hv)
    as (evs1 & e & evs2 & -> & Hn & Hev & Hafter).
  exists e, v. repeat split; [set_solver|done..| |].
  - by rewrite (apply_events_lookup _ _ _ n Ha), Hv.
  - intros e' He' Hn'.
    apply tokenize_sorted in Ht as [_ Hsorted].
    apply elem_of_app in He' as [He'|He'].
    + right. eapply (StronglySorted_app_1_elem_of _ _ _ _ _ Hsorted);
        [done|left].
    + apply elem_of_cons in He' as [->|He']; [by left|].
      rewrite Forall_forall in Hafter. by destruct (Hafter e' He').
Qed.

(** C5. For an option whose flag sets a boolean, in an argv where the flag
    occurs: the resolved value is false exactly when the inverse flag
    occurs at an index greater than that of every occurrence of the flag,
    and true otherwise, so with the flag alone it is true. Each occurrence
    is a token of argv that is that flag. *)
Theorem inverse_boolean_law (opts : list OptionSpec) (argv : list string)
    (evs : list event) (pos : list string) (p : ParamSet) (n : string) :
  (forall o, o ∈ opts -> opt_name o = n -> opt_ty o = TBool) ->
  tokenize opts 0 argv = inr (evs, pos) ->
  parse convert opts argv = inr (p, pos) ->
  (exists i, occurs n Direct evs i) ->
  let inverse_last :=
    exists j, occurs n Inverse evs j /\
              forall i, occurs n Direct evs i -> i < j in
  (items p !! n = Some (VBool false) <-> inverse_last) /\
  (items p !! n = Some (VBool true) <-> ~ inverse_last) /\
  (forall pol i, occurs n pol evs i ->
     exists tok o arg, argv !! i = Some tok /\
       resolve opts tok = RFlag o pol arg /\ opt_name o = n).
Proof.
  intros Hbool Ht Hp [i0 (e0 & He0 & Hi0 & Hn0 & Hpol0)] inverse_last.
  destruct (parse_inv _ _ _ _ _ _ Ht Hp) as [Ha _].
  destruct (last_occurrence _ _ _ _ _ n Ht Ha) as
    (e & v & He & Hn & Hev & _ & Hlook & Hlast); [by exists e0|].
  assert (Hv : v = VBool (bool_decide (ev_pol e = Direct))).
  { pose proof (tokenize_opts _ _ _ _ _ Ht) as Hopts.
    rewrite Forall_forall in Hopts.
    unfold event_value in Hev.
    rewrite (Hbool _ (Hopts e He) Hn) in Hev. cbn in Hev. congruence. }
  rewrite Hlook, Hv. clear Hlook Hv Hev v.
  assert (Hdec : ev_pol e = Inverse <-> inverse_last).
  { split.
    - intros Hpol. exists (ev_pos e). split; [by exists e|].
      intros i (e' & He' & <- & Hn' & Hpol').
      destruct (Hlast e' He' Hn') as [->|Hlt]; [congruence|done].
    - intros (j & (ej & Hej & <- & Hnj & Hpolj) & Hall).
      destruct (ev_pol e) eqn:Hpol; [|done]. exfalso.
      assert (ev_pos e < ev_pos ej) by (apply Hall; by exists e).
      destruct (Hlast ej Hej Hnj) as [->|Hlt]; [congruence|lia]. }
  repeat split.
  - intros [= Hb]. apply Hdec. apply bool_decide_eq_false in Hb.
    by destruct (ev_pol e).
  - intros Hi. apply Hdec in Hi. by rewrite Hi.
  - intros [= Hb] Hi. apply Hdec in Hi. rewrite Hi in Hb. done.
  - intros Hni. destruct (ev_pol e) eqn:Hpol; [done|].
    exfalso. by apply Hni, Hdec.
  - intros pol i (e' & He' & <- & Hn' & <-).
    pose proof (tokenize_token _ _ _ _ _ Ht) as Htok.
    rewrite Forall_forall in Htok.
    destruct (Htok e' He') as (k & tok & arg & Hk & Hlk & Hr).
    exists tok, (ev_opt e'), arg. cbn in Hk. by rewrite Hk.
Qed.

(** ** Defaults and the manifest *)

Lemma defaults_from (opts : list OptionSpec) (p0 : ParamSet) (n : string) :
  n ∉ opt_name <$> opts ->
  items (foldl (fun p o => set_default (opt_name o) (opt_default o) p)
               p0 opts) !! n = items p0 !! n.
Proof.
  revert p0. induction opts as [|o opts IH]; intros p0 Hn; cbn; [done|].
  cbn in Hn. apply not_elem_of_cons in Hn as [Hne Hn].
  rewrite IH by done. cbn. by rewrite lookup_insert_ne.
Qed.

(** A fresh ParamSet holds the default of every option. *)
Lemma defaults_lookup (opts : list OptionSpec) (o : OptionSpec) :
  NoDup (opt_name <$> opts) -> o ∈ opts ->
  items (defaults opts) !! opt_name o = Some (opt_default o).
Proof.
  unfold defaults. generalize (mkParamSet ∅ ∅).
  induction opts as [|o0 opts IH]; intros p0 Hnd Ho; cbn.
  { by apply elem_of_nil in Ho. }
  cbn in Hnd. apply NoDup_cons in Hnd as [Hfresh Hnd].
  apply elem_of_cons in Ho as [->|Ho]; [|by apply IH].
  rewrite defaults_from by done. cbn. by rewrite lookup_insert_eq.
Qed.

(** No presence bit is set in it. *)
Lemma defaults_explicit (opts : list OptionSpec) :
  explicit (defaults opts) = ∅.
Proof.
  unfold defaults.
  assert (G : forall p0,
             explicit (foldl (fun p o =>
                                set_default (opt_name o) (opt_default o) p)
                             p0 opts) = explicit p0).
  { induction opts as [|o opts IH]; intros p0; cbn; [done|].
    by rewrite IH. }
  by rewrite G.
Qed.

(** The manifest pass: an entry of the manifest replaces the value of an
    option whose presence bit is not set, and nothing else changes. *)
Lemma update_defaults_lookup (p : ParamSet) (config : gmap string value)
    (n : string) :
  items (update_defaults p config) !! n =
    if decide (n ∈ explicit p) then items p !! n
    else match config !! n with
         | Some v => Some v
         | None => items p !! n
         end.
Proof.
  unfold update_defaults. cbn. rewrite lookup_union.
  destruct (decide (n ∈ explicit p)) as [Hin|Hout].
  - rewrite map_lookup_filter_None_2; [by rewrite (left_id None _)|].
    right. intros v _. cbn. tauto.
  - destruct (config !! n) as [v|] eqn:Ec.
    + rewrite (map_lookup_filter_Some_2 _ _ n v) by done.
      by destruct (items p !! n).
    + rewrite map_lookup_filter_None_2 by (by left).
      by rewrite (left_id None _).
Qed.

(** The option ids of every command are distinct. *)
Lemma set_options_NoDup (c : cmd_class) : NoDup (opt_name <$> set_options c).
Proof. destruct c; compute_done. Qed.

Lemma base_options_set_options (c : cmd_class) (o : OptionSpec) :
  is_DoitCmdBase c = true -> o ∈ base_options -> o ∈ set_options c.
Proof.
  intros Hc Ho. unfold set_options. rewrite Hc. apply elem_of_app. by left.
Qed.

(** After the command line pass every option of the command has a value. *)
Lemma parse_lookup (opts : list OptionSpec) (argv args : list string)
    (p : ParamSet) (o : OptionSpec) :
  NoDup (opt_name <$> opts) -> o ∈ opts ->
  parse convert opts argv = inr (p, args) ->
  is_Some (items p !! opt_name o).
Proof.
  intros Hnd Ho. unfold parse. unfold_M.
  destruct (tokenize opts 0 argv) as [err|[evs pos]]; [done|].
  destruct (apply_events convert (defaults opts) evs) as [err|p'] eqn:Ha; [done|].
  intros [= -> _]. rewrite (apply_events_lookup _ _ _ _ Ha).
  destruct (cli_value convert _ _); [done|]. by rewrite defaults_lookup.
Qed.

(** The presence bit of an option is set exactly when argv supplies it. *)
Lemma parse_explicit (opts : list OptionSpec) (evs : list event)
    (p : ParamSet) (n : string) :
  apply_events convert (defaults opts) evs = inr p ->
  n ∈ explicit p <-> supplied n evs.
Proof.
  intros Ha. rewrite (apply_events_explicit _ _ _ n Ha), defaults_explicit.
  split; [|by right]. intros [Hin|Hs]; [|done].
  by apply not_elem_of_empty in Hin.
Qed.

(** The three tiers, for any option list with distinct ids. *)
Lemma three_tiers (opts : list OptionSpec) (evs : list event)
    (p : ParamSet) (config : gmap string value) (o : OptionSpec) :
  NoDup (opt_name <$> opts) -> o ∈ opts ->
  apply_events convert (defaults opts) evs = inr p ->
  let resolved := items (update_defaults p config) !! opt_name o in
  (supplied (opt_name o) evs ->
   exists v, cli_value convert (opt_name o) evs = Some v /\ resolved = Some v) /\
  (~ supplied (opt_name o) evs ->
   forall v, config !! opt_name o = Some v -> resolved = Some v) /\
  (~ supplied (opt_name o) evs ->
   config !! opt_name o = None -> resolved = Some (opt_default o)).
Proof.
  intros Hnd Ho Ha resolved. subst resolved.
  rewrite update_defaults_lookup.
  pose proof (parse_explicit _ _ _ (opt_name o) Ha) as Hex.
  pose proof (apply_events_values _ _ _ Ha) as HF.
  pose proof (cli_value_supplied _ (opt_name o) HF) as Hcli.
  rewrite (apply_events_lookup _ _ _ (opt_name o) Ha).
  repeat split.
  - intros Hs. rewrite decide_True by by apply Hex.
    apply Hcli in Hs as [v Hv]. exists v. by rewrite Hv.
  - intros Hs v Hc. rewrite decide_False by by rewrite Hex. by rewrite Hc.
  - intros Hs Hc. rewrite decide_False by by rewrite Hex. rewrite Hc.
    destruct (cli_value convert (opt_name o) evs) as [v|] eqn:Hv.
    + exfalso. apply Hs, Hcli. by eexists.
    + by apply defaults_lookup.
Qed.

(** C1. For a command that reads the manifest and every option [o] of it:
    after the arguments are parsed, [read_dodo] (which finds the three
    parameters it passes to the loader) resolves [o] to the value of the
    command line when argv supplies [o]; otherwise to the default the
    manifest declares for it, when it declares one; otherwise to the
    default of the option. *)
Theorem precedence_law (c : cmd_class) (argv : list string)
    (evs : list event) (pos args : list string) (p : ParamSet)
    (sub_cmds : gmap string cmd_class) (h : list effect) (o : OptionSpec) :
  is_DoitCmdBase c = true ->
  tokenize (set_options c) 0 argv = inr (evs, pos) ->
  parse convert (set_options c) argv = inr (p, args) ->
  o ∈ set_options c ->
  exists dodoFile cwdPath seek_file,
    items p !! "dodoFile" = Some dodoFile /\
    items p !! "cwdPath" = Some cwdPath /\
    items p !! "seek_file" = Some seek_file /\
    forall dodo,
      get_tasks h dodoFile cwdPath seek_file (dom sub_cmds) = inr dodo ->
      exists params' self,
        read_dodo (mkParams p sub_cmds) args h =
          (h ++ [GetTasks dodoFile cwdPath seek_file (dom sub_cmds)],
           inr (params', self)) /\
        let resolved := items (pset params') !! opt_name o in
        (supplied (opt_name o) evs ->
         exists v, cli_value convert (opt_name o) evs = Some v /\
                   resolved = Some v) /\
        (~ supplied (opt_name o) evs ->
         forall v, dodo_config dodo !! opt_name o = Some v ->
                   resolved = Some v) /\
        (~ supplied (opt_name o) evs ->
         dodo_config dodo !! opt_name o = None ->
         resolved = Some (opt_default o)).
Proof.
  intros Hc Ht Hp Ho.
  pose proof (set_options_NoDup c) as Hnd.
  assert (Hbase : forall b, b ∈ base_options ->
                            is_Some (items p !! opt_name b)).
  { intros b Hb. eapply parse_lookup; [done| |done].
    by apply base_options_set_options. }
  destruct (Hbase opt_dodo) as [dodoFile H1]; [set_solver|].
  destruct (Hbase opt_cwd) as [cwdPath H2]; [set_solver|].
  destruct (Hbase opt_seek_file) as [seek_file H3]; [set_solver|].
  cbn in H1, H2, H3.
  exists dodoFile, cwdPath, seek_file. repeat split; [done..|].
  intros dodo Hl. unfold read_dodo, get_item. unfold_M.
  cbn [pset sub]. rewrite H1, H2, H3, Hl.
  do 2 eexists. split; [reflexivity|]. cbn [pset fst].
  destruct (parse_inv _ _ _ _ _ _ Ht Hp) as [Ha _].
  by apply (three_tiers (set_options c)).
Qed.

(** * Further properties of the dispatcher and the commands *)

(** ** The scan for variables, continued *)

(** A variable token is its name, the first [=] and its value; the name
    holds no [=] and does not start with [-]. *)
Lemma var_call_spec (tok : string) :
  is_var tok = true ->
  exists name val,
    var_call tok = SetVar name val /\ tok = name +:+ String "=" val /\
    contains "=" name = false /\ first_char name <> Some "-"%char.
Proof.
  unfold is_var, var_call. destruct tok as [|c tok]; [done|].
  cbn [first_char]. intros H. apply andb_prop in H as [Hc He].
  rewrite contains_split_first in He.
  destruct (split_first "=" (String c tok)) as [[name val] f] eqn:Es.
  cbn in He. subst f. exists name, val.
  destruct (split_first_spec _ _ _ _ Es) as [Htok Hname].
  repeat split; [done..|].
  destruct name as [|c' name]; [done|]. cbn in Htok.
  injection Htok as <- _. cbn. intros [= ->]. done.
Qed.

Lemma append_nil (s : string) : "" +:+ s = s.
Proof. reflexivity. Qed.

Lemma append_cons (a : ascii) (l s : string) :
  String a l +:+ s = String a (l +:+ s).
Proof. reflexivity. Qed.

Lemma split_first_app (c : ascii) (l r : string) :
  contains c l = false -> split_first c (l +:+ String c r) = (l, r, true).
Proof.
  induction l as [|a l IH]; intros H.
  - rewrite append_nil. cbn. by rewrite Ascii.eqb_refl.
  - rewrite append_cons. cbn in *.
    destruct (Ascii.eqb a c); [done|]. by rewrite (IH H).
Qed.

Lemma contains_app (c : ascii) (l r : string) :
  contains c (l +:+ String c r) = true.
Proof.
  induction l as [|a l IH].
  - rewrite append_nil. cbn. by rewrite Ascii.eqb_refl.
  - rewrite append_cons. cbn. by destruct (Ascii.eqb a c).
Qed.

(** The arguments already kept do not influence the scan. *)
Lemma scan_vars_acc (cmd_args acc : list string) (h : list effect) :
  scan_vars cmd_args acc h =
    match scan_vars cmd_args [] h with
    | (h', inr args) => (h', inr (acc ++ args))
    | (h', inl e) => (h', inl e)
    end.
Proof.
  revert acc h. induction cmd_args as [|arg rest IH]; intros acc h; cbn.
  { unfold_M. by rewrite app_nil_r. }
  unfold_M. destruct arg as [|c arg]; [by rewrite !scan_step_empty|].
  rewrite !scan_step_nonempty by done.
  destruct (is_var (String c arg)).
  - by rewrite IH.
  - rewrite (IH (acc ++ _)), (IH ([] ++ _)).
    destruct (scan_vars rest [] h) as [h' [e|args]]; [done|].
    by rewrite <- app_assoc.
Qed.

(** Whatever the scan does, its effects are calls of [set_var]. *)
Lemma scan_vars_effects (cmd_args acc : list string) (h h' : list effect)
    (r : exn + list string) :
  scan_vars cmd_args acc h = (h', r) ->
  exists t, h' = h ++ t /\
    Forall (fun ev => exists tok, is_var tok = true /\ ev = var_call tok) t.
Proof.
  revert acc h. induction cmd_args as [|arg rest IH]; intros acc h; cbn.
  { unfold_M. intros [= <- <-]. exists []. by rewrite app_nil_r. }
  unfold_M. destruct arg as [|c arg].
  { rewrite scan_step_empty. intros [= <- <-]. exists [].
    by rewrite app_nil_r. }
  rewrite scan_step_nonempty by done.
  destruct (is_var (String c arg)) eqn:Ev.
  - intros Hs. destruct (IH _ _ Hs) as (t & -> & Ht).
    exists (var_call (String c arg) :: t). rewrite <- app_assoc.
    split; [done|]. constructor; [by eexists|done].
  - by apply IH.
Qed.

Lemma filter_sublist (f : string -> bool) (l : list string) :
  sublist (List.filter f l) l.
Proof.
  induction l as [|a l IH]; cbn; [constructor|].
  destruct (f a); by constructor.
Qed.

Lemma filter_split_length (f : string -> bool) (l : list string) :
  length (List.filter f l) + length (List.filter (fun a => negb (f a)) l) =
  length l.
Proof.
  induction l as [|a l IH]; cbn; [done|].
  destruct (f a); cbn; lia.
Qed.

(** X1. On an argv without an empty token the loop of [cmd_main] splits
    the tokens in two: the variable tokens, each recorded by one call of
    [set_var], and the others, kept for the command; both keep the order
    of argv and every token is on exactly one side. *)
Theorem scan_vars_partition (cmd_args : list string) (h : list effect) :
  Forall (fun a => a <> "") cmd_args ->
  scan_vars cmd_args [] h =
    (h ++ (var_call <$> var_tokens cmd_args), inr (kept_tokens cmd_args)) /\
  length (var_tokens cmd_args) + length (kept_tokens cmd_args) =
    length cmd_args /\
  sublist (var_tokens cmd_args) cmd_args /\
  sublist (kept_tokens cmd_args) cmd_args.
Proof.
  intros HF. split; [by rewrite scan_vars_nonempty|].
  split; [apply filter_split_length|].
  split; apply filter_sublist.
Qed.

(** X2. Whatever argv is, and whether or not the scan completes, the only
    effects of the scan are calls of [set_var], and the name passed never
    holds a [=] and never starts with [-]. *)
Theorem recorded_variable_names (cmd_args acc : list string)
    (h : list effect) :
  exists t, (scan_vars cmd_args acc h).1 = h ++ t /\
    Forall (fun ev => exists name val,
              ev = SetVar name val /\ contains "=" name = false /\
              first_char name <> Some "-"%char) t.
Proof.
  destruct (scan_vars cmd_args acc h) as [h' r] eqn:Hs.
  destruct (scan_vars_effects _ _ _ _ _ Hs) as (t & -> & Ht).
  exists t. split; [done|].
  eapply Forall_impl; [done|]. cbn. intros ev (tok & Hv & ->).
  destruct (var_call_spec _ Hv) as (name & val & Hc & _ & Hn & Hd).
  by exists name, val.
Qed.

Lemma scan_step_binding (acc : list string) (name val : string)
    (h : list effect) :
  contains "=" name = false -> first_char name <> Some "-"%char ->
  scan_step acc (name +:+ String "=" val) h =
    (h ++ [SetVar name val], inr acc).
Proof.
  intros Hn Hd.
  assert (Hne : name +:+ String "=" val <> "") by by destruct name.
  rewrite scan_step_nonempty by done.
  assert (Hv : is_var (name +:+ String "=" val) = true).
  { unfold is_var. destruct name as [|c name].
    - reflexivity.
    - rewrite append_cons. cbn [first_char]. rewrite <- append_cons.
      rewrite contains_app, andb_true_r.
      apply negb_true_iff, Ascii.eqb_neq. intros ->. by apply Hd. }
  rewrite Hv. unfold var_call. by rewrite split_first_app.
Qed.

(** X3. Every list of bindings can be passed on the command line: for
    names without [=] that do not start with [-] (the empty name too) and
    any values, the tokens [name=value] are recorded as exactly these
    bindings, in order, and no token is left for the command. *)
Theorem variable_round_trip (bindings : list (string * string))
    (h : list effect) :
  Forall (fun b => contains "=" b.1 = false /\
                   first_char b.1 <> Some "-"%char) bindings ->
  scan_vars ((fun b => b.1 +:+ String "=" b.2) <$> bindings) [] h =
    (h ++ ((fun b => SetVar b.1 b.2) <$> bindings), inr []).
Proof.
  intros HF. revert h.
  induction HF as [|[name val] bindings [Hn Hd] _ IH]; intros h; cbn.
  { unfold_M. by rewrite app_nil_r. }
  unfold_M. rewrite scan_step_binding by done. rewrite IH.
  by rewrite <- app_assoc.
Qed.

(** ** The commands that read the manifest *)

(** The outcomes of [read_dodo]: a missing parameter, a loader that
    raises, or the merged parameters and the attributes of the command. *)
Lemma read_dodo_cases (params : Params) (args : list string)
    (h : list effect) :
  (exists k, read_dodo params args h = (h, inl (KeyError k))) \/
  exists dodoFile cwdPath seek_file,
    items (pset params) !! "dodoFile" = Some dodoFile /\
    items (pset params) !! "cwdPath" = Some cwdPath /\
    items (pset params) !! "seek_file" = Some seek_file /\
    let g := GetTasks dodoFile cwdPath seek_file (dom (sub params)) in
    match get_tasks h dodoFile cwdPath seek_file (dom (sub params)) with
    | inl e => read_dodo params args h = (h ++ [g], inl e)
    | inr dodo =>
        read_dodo params args h =
          (h ++ [g],
           inr (mkParams (update_defaults (pset params) (dodo_config dodo))
                         (sub params),
                mkState (dodo_task_list dodo) (dodo_config dodo)
                  match args with
                  | [] => get_default_tasks (dodo_config dodo)
                  | _ => VList args
                  end))
    end.
Proof.
  unfold read_dodo, get_item. unfold_M.
  destruct (items (pset params) !! "dodoFile") as [df|]; [|left; by eexists].
  destruct (items (pset params) !! "cwdPath") as [cw|]; [|left; by eexists].
  destruct (items (pset params) !! "seek_file") as [sk|];
    [|left; by eexists].
  right. exists df, cw, sk. repeat split.
  by destruct (get_tasks h df cw sk (dom (sub params))).
Qed.

(** The parameters a command reads after [read_dodo], one after the
    other. *)
Ltac step_items :=
  repeat match goal with
         | |- context [items ?p !! ?k] =>
             let E := fresh "E" in
             destruct (items p !! k) eqn:E; cbn beta iota
         end.

(** The outcomes of a command that reads the manifest. *)
Lemma execute_cases (c : cmd_class) (params : Params) (args : list string)
    (h : list effect) :
  c <> Help ->
  (exists k, execute c params args h = (h, inl (KeyError k))) \/
  exists dodoFile cwdPath seek_file,
    items (pset params) !! "dodoFile" = Some dodoFile /\
    items (pset params) !! "cwdPath" = Some cwdPath /\
    items (pset params) !! "seek_file" = Some seek_file /\
    let g := GetTasks dodoFile cwdPath seek_file (dom (sub params)) in
    match get_tasks h dodoFile cwdPath seek_file (dom (sub params)) with
    | inl e => execute c params args h = (h ++ [g], inl e)
    | inr dodo =>
        (exists k, execute c params args h = (h ++ [g], inl (KeyError k))) \/
        exists f eargs,
          cmd_executor c = Some f /\
          execute c params args h =
            (h ++ [g; Execute f eargs], call_executor (h ++ [g]) f eargs)
    end.
Proof.
  intros Hc.
  destruct (read_dodo_cases params args h)
    as [[k Hk]|(df & cw & sk & H1 & H2 & H3 & Hr)].
  { left. exists k. destruct c; [done|..]; unfold execute; unfold_M;
      by rewrite Hk. }
  right. exists df, cw, sk. repeat split; [done..|]. cbn zeta in *.
  destruct (get_tasks h df cw sk (dom (sub params))) as [e|dodo].
  { destruct c; [done|..]; unfold execute; unfold_M; by rewrite Hr. }
  destruct c; [done|..]; unfold execute, run_executor, get_item; unfold_M;
    rewrite Hr; cbn [pset]; step_items;
    first [ left; by eexists
          | right; do 2 eexists; split; [reflexivity|];
            by rewrite <- app_assoc ].
Qed.


Lemma Help_execute_print (params : Params) (args : list string)
    (h : list effect) :
  exists ev, is_help_print ev /\
    Help_execute params args h = (h ++ [ev], inr 0%Z).
Proof.
  unfold Help_execute.
  destruct args as [|a [|b rest]];
    [by exists PrintUsage| |by exists PrintUsage].
  destruct (sub params !! a) as [c|]; [by exists (PrintCmdHelp c)|].
  destruct (String.eqb a "task");
    [by exists PrintTaskHelp|by exists PrintUsage].
Qed.

Lemma hist_same (h t : list effect) : h = h ++ t -> t = [].
Proof. intros H. apply (app_inv_head h). by rewrite app_nil_r. Qed.

(** An equation between two histories that extend [h]. *)
Ltac hist_inv H :=
  injection H as H ?; rewrite <- ?app_assoc in H;
  first [apply hist_same in H | apply app_inv_head in H];
  cbn in H; try discriminate H.

(** X5. What a command hands to its executor as the selection of tasks,
    when it gets as far as calling it: [run], [forget] and [auto] pass the
    effective selection (the positional arguments, or the default tasks of
    the manifest when there are none); [list] and [ignore] pass the
    positional arguments as they are; [clean] passes both, the defaults
    and the positional arguments. The executor is the command's own and
    its result is the result of the command. *)
Theorem selection_forwarded (c : cmd_class) (params : Params)
    (args : list string) (h : list effect) (g : effect) (f : executor)
    (eargs : list earg) (r : exn + Z) :
  execute c params args h = (h ++ [g; Execute f eargs], r) ->
  exists dodoFile cwdPath seek_file dodo,
    g = GetTasks dodoFile cwdPath seek_file (dom (sub params)) /\
    get_tasks h dodoFile cwdPath seek_file (dom (sub params)) = inr dodo /\
    cmd_executor c = Some f /\
    r = call_executor (h ++ [g]) f eargs /\
    let defaults := get_default_tasks (dodo_config dodo) in
    let selection := match args with [] => defaults | _ => VList args end in
    match c with
    | Run | Forget => eargs !! 3 = Some (AVal selection)
    | Auto => eargs !! 2 = Some (AVal selection)
    | List | Ignore => eargs !! 3 = Some (AVal (VList args))
    | Clean => eargs !! 5 = Some (AVal defaults) /\
               eargs !! 6 = Some (AVal (VList args))
    | Help => False
    end.
Proof.
  intros He.
  destruct (decide (c = Help)) as [->|Hc].
  { destruct (Help_execute_print params args h) as (ev & _ & Hh).
    cbn in He. rewrite Hh in He. hist_inv He. }
  destruct (read_dodo_cases params args h)
    as [[k Hk]|(df & cw & sk & H1 & H2 & H3 & Hr)].
  { exfalso. destruct c; [done|..]; unfold execute in He; unfold_M;
      rewrite Hk in He; hist_inv He. }
  cbn zeta in Hr.
  destruct (get_tasks h df cw sk (dom (sub params))) as [e|dodo] eqn:Hl.
  { exfalso. destruct c; [done|..]; unfold execute in He; unfold_M;
      rewrite Hr in He; hist_inv He. }
  exists df, cw, sk, dodo.
  destruct c; [done|..]; unfold execute, run_executor, get_item in He;
    unfold_M; rewrite Hr in He; cbn [pset] in He;
    repeat match type of He with
           | context [items ?p !! ?k] =>
               let E := fresh "E" in
               destruct (items p !! k) eqn:E; cbn beta iota in He
           end;
    hist_inv He; injection He as <- <- <-; subst r; done.
Qed.

(** ** The whole dispatch *)

Lemma cmd_main_dispatch (cmd_args : list string) :
  special_first cmd_args = false -> cmd_main cmd_args = dispatch cmd_args.
Proof.
  destruct cmd_args as [|first rest]; [done|]. cbn.
  intros H. apply orb_false_elim in H as [-> ->]. done.
Qed.

Lemma cmd_main_special (cmd_args : list string) (h : list effect) :
  special_first cmd_args = true ->
  exists ev, (ev = PrintVersion \/ ev = PrintUsage) /\
    cmd_main cmd_args h = (h ++ [ev], inr 0%Z).
Proof.
  destruct cmd_args as [|first rest]; [done|]. cbn.
  destruct (String.eqb first "--version"); [exists PrintVersion; by split; [left|]|].
  destruct (String.eqb first "--help"); [|done].
  intros _. exists PrintUsage. by split; [right|].
Qed.

(** The scan raises nothing but the [IndexError] of an empty token. *)
Lemma scan_vars_raises (cmd_args acc : list string) (h h' : list effect)
    (e : exn) :
  scan_vars cmd_args acc h = (h', inl e) ->
  e = IndexError "string index out of range" /\
  ~ Forall (fun a => a <> "") cmd_args.
Proof.
  intros Hs. split.
  - revert acc h Hs.
    induction cmd_args as [|arg rest IH]; intros acc h; cbn; [done|].
    unfold_M. destruct arg as [|c arg].
    + rewrite scan_step_empty. by intros [= _ <-].
    + rewrite scan_step_nonempty by done.
      destruct (is_var (String c arg)); apply IH.
  - intros HF. by rewrite (scan_vars_nonempty _ _ _ HF) in Hs.
Qed.

Lemma run_command_registered (args : list string) :
  exists c, sub_cmd !! (select_command sub_cmd args).1 = Some c /\
    run_command sub_cmd (select_command sub_cmd args).1
                (select_command sub_cmd args).2 =
    parse_execute c (select_command sub_cmd args).2 sub_cmd.
Proof.
  destruct (select_command_cases args) as [[E _]|(a & rest & -> & Ha & E)];
    rewrite E.
  - exists Run. by split.
  - apply elem_of_dom in Ha as [c Hc]. exists c. split; [done|].
    cbn [fst snd]. unfold run_command. by rewrite Hc.
Qed.

(** The command [cmd_main] runs on an argv without an empty token. *)
Lemma dispatch_command (cmd_args : list string) (h : list effect) :
  Forall (fun a => a <> "") cmd_args ->
  exists c in_args,
    sub_cmd !! (select_command sub_cmd (kept_tokens cmd_args)).1 = Some c /\
    in_args = (select_command sub_cmd (kept_tokens cmd_args)).2 /\
    let h1 := (h ++ [ResetVars]) ++ (var_call <$> var_tokens cmd_args) in
    dispatch cmd_args h =
      match parse_execute c in_args sub_cmd h1 with
      | (h2, inr z) => (h2, inr z)
      | (h2, inl err) => (h2 ++ [error_report err], inr 3%Z)
      end.
Proof.
  intros HF.
  pose proof (scan_vars_nonempty cmd_args [] (h ++ [ResetVars]) HF) as Hs.
  rewrite (dispatch_unfold _ _ _ _ Hs), try_except_handle_error.
  destruct (run_command_registered (kept_tokens cmd_args))
    as (c & Hc & Hrun).
  exists c, (select_command sub_cmd (kept_tokens cmd_args)).2.
  repeat split; [done|]. cbn zeta. cbn [app] in *. by rewrite Hrun.
Qed.

(** A command has one of the shapes of [command_shape]. *)
Lemma parse_execute_effects (c : cmd_class) (in_args : list string)
    (sub_cmds : gmap string cmd_class) (h : list effect) :
  exists t r, parse_execute c in_args sub_cmds h = (h ++ t, r) /\
              command_shape sub_cmds h t r.
Proof.
  unfold parse_execute, lift_exn, command_shape. unfold_M.
  destruct (parse convert (set_options c) in_args) as [e|[p args]].
  { exists [], (inl e). rewrite app_nil_r. split; [done|]. left.
    split; [done|by exists e]. }
  destruct (decide (c = Help)) as [->|Hc].
  { destruct (Help_execute_print (mkParams p sub_cmds) args h)
      as (ev & Hev & Hh).
    do 2 eexists. split; [exact Hh|]. right. left. by exists ev. }
  destruct (execute_cases c (mkParams p sub_cmds) args h Hc)
    as [[k Hk]|(df & cw & sk & _ & _ & _ & H)].
  { exists [], (inl (KeyError k)). rewrite app_nil_r. split; [done|].
    left. split; [done|by eexists]. }
  cbn zeta in H. cbn [sub] in H.
  destruct (get_tasks h df cw sk (dom sub_cmds)) as [e|dodo] eqn:Hl.
  { do 2 eexists. split; [exact H|]. right. right. left.
    exists df, cw, sk, e. by rewrite Hl. }
  destruct H as [[k Hk]|(f & eargs & Hf & He)].
  - do 2 eexists. split; [exact Hk|]. right. right. left.
    exists df, cw, sk, (KeyError k). rewrite Hl. repeat split. by exists k.
  - do 2 eexists. split; [exact He|]. do 3 right.
    by exists df, cw, sk, dodo, f, eargs.
Qed.

(** What [cmd_main] makes of the outcome of the command, on an argv
    without an empty token. *)
Lemma dispatch_outcome (cmd_args : list string) (h : list effect) :
  Forall (fun a => a <> "") cmd_args ->
  let h1 := (h ++ [ResetVars]) ++ (var_call <$> var_tokens cmd_args) in
  exists t r,
    command_shape sub_cmd h1 t r /\
    dispatch cmd_args h =
      match r with
      | inr z => (h1 ++ t, inr z)
      | inl err => ((h1 ++ t) ++ [error_report err], inr 3%Z)
      end.
Proof.
  intros HF h1.
  destruct (dispatch_command cmd_args h HF) as (c & in_args & _ & _ & Hd).
  cbn zeta in Hd. fold h1 in Hd.
  destruct (parse_execute_effects c in_args sub_cmd h1) as (t & r & Hp & Hs).
  exists t, r. split; [done|]. rewrite Hd, Hp. by destruct r.
Qed.

Lemma dispatch_scan_fails (cmd_args : list string) (h h1 : list effect)
    (e : exn) :
  scan_vars cmd_args [] (h ++ [ResetVars]) = (h1, inl e) ->
  dispatch cmd_args h = (h1, inl e).
Proof. intros Hs. unfold dispatch. unfold_M. by rewrite Hs. Qed.


Lemma var_call_is_set_var (tok : string) : is_set_var (var_call tok).
Proof.
  unfold var_call. by destruct (split_first "=" tok) as [[name val] f].
Qed.

Lemma error_report_is_stderr (err : exn) : is_stderr (error_report err).
Proof. unfold error_report. by destruct (user_error err). Qed.

Lemma command_shape_effects (sub_cmds : gmap string cmd_class)
    (h t : list effect) (r : exn + Z) :
  command_shape sub_cmds h t r ->
  Forall (fun ev => is_help_print ev \/ is_loader_call ev \/
                    is_executor_call ev) t.
Proof.
  unfold command_shape.
  intros [[-> _]|[(ev & -> & Hev & _)|[(df & cw & sk & e & -> & _)|H]]].
  - constructor.
  - constructor; [by left|constructor].
  - constructor; [right; by left|constructor].
  - destruct H as (df & cw & sk & dodo & f & eargs & H). cbn zeta in H.
    destruct H as (-> & _).
    constructor; [right; by left|].
    constructor; [right; by right|constructor].
Qed.

(** Every run of [cmd_main]: the special parameters; a scan that raises;
    or the reset, the variables, the effects of the command and, when the
    command raised, the report on the error stream with exit code 3. *)
Lemma cmd_main_outcome (cmd_args : list string) (h : list effect) :
  (exists ev,
     (ev = PrintVersion /\ head cmd_args = Some "--version" \/
      ev = PrintUsage /\ head cmd_args = Some "--help") /\
     cmd_main cmd_args h = (h ++ [ev], inr 0%Z)) \/
  head cmd_args <> Some "--version" /\
  exists vars, Forall is_set_var vars /\
    ((exists e, cmd_main cmd_args h = (h ++ ResetVars :: vars, inl e)) \/
     exists t r,
       command_shape sub_cmd (h ++ ResetVars :: vars) t r /\
       cmd_main cmd_args h =
         match r with
         | inr z => (h ++ ResetVars :: vars ++ t, inr z)
         | inl err =>
             (h ++ ResetVars :: vars ++ t ++ [error_report err], inr 3%Z)
         end).
Proof.
  destruct (special_first cmd_args) eqn:Hsp.
  { left. destruct cmd_args as [|first rest]; [done|]. cbn in *.
    destruct (String.eqb first "--version") eqn:Ev.
    - apply String.eqb_eq in Ev as ->. exists PrintVersion.
      split; [by left|done].
    - destruct (String.eqb first "--help") eqn:Eh; [|done].
      apply String.eqb_eq in Eh as ->. exists PrintUsage.
      split; [by right|done]. }
  right. split.
  { destruct cmd_args as [|first rest]; [done|]. cbn in *.
    intros [= ->]. done. }
  rewrite (cmd_main_dispatch _ Hsp).
  destruct (scan_vars cmd_args [] (h ++ [ResetVars]))
    as [h1 [e|args]] eqn:Hs.
  - destruct (scan_vars_effects _ _ _ _ _ Hs) as (vars & -> & Hv).
    exists vars. split.
    { eapply Forall_impl; [done|]. cbn. intros ev (tok & _ & ->).
      apply var_call_is_set_var. }
    left. exists e. rewrite (dispatch_scan_fails _ _ _ _ Hs).
    by rewrite <- app_assoc.
  - pose proof (scan_vars_returns _ _ _ _ _ Hs) as HF.
    destruct (dispatch_outcome cmd_args h HF) as (t & r & Hshape & Hd).
    exists (var_call <$> var_tokens cmd_args). split.
    { apply Forall_fmap, Forall_forall. intros tok _.
      apply var_call_is_set_var. }
    right. exists t, r.
    assert (E : (h ++ [ResetVars]) ++ (var_call <$> var_tokens cmd_args) =
                h ++ ResetVars :: (var_call <$> var_tokens cmd_args))
      by by rewrite <- app_assoc.
    rewrite E in *. split; [done|]. rewrite Hd.
    destruct r; by rewrite <- ?app_assoc.
Qed.

Lemma snoc_inv (A t : list effect) (x y : effect) :
  A ++ [x] = t ++ [y] -> A = t /\ x = y.
Proof. apply app_inj_tail. Qed.

Lemma snoc2 (t : list effect) (a b : effect) :
  t ++ [a; b] = (t ++ [a]) ++ [b].
Proof. by rewrite <- app_assoc. Qed.

Lemma snoc3 (t : list effect) (a b c : effect) :
  t ++ [a; b; c] = (t ++ [a; b]) ++ [c].
Proof. by rewrite <- app_assoc. Qed.


(** The call [x] is in a history that is written out. *)
Ltac in_hist H :=
  rewrite H, ?elem_of_app, ?elem_of_cons; auto 10.


(** The effects after the reset, for a property that holds of the calls
    of [set_var] and of the effects of a command. *)
Lemma Forall_run (P : effect -> Prop) (sub_cmds : gmap string cmd_class)
    (h1 vars t : list effect) (r : exn + Z) :
  P ResetVars -> (forall ev, is_set_var ev -> P ev) ->
  (forall ev, is_help_print ev \/ is_loader_call ev \/ is_executor_call ev ->
              P ev) ->
  Forall is_set_var vars -> command_shape sub_cmds h1 t r ->
  Forall P (ResetVars :: vars ++ t).
Proof.
  intros HR HV HC Hv Hs. constructor; [done|]. apply Forall_app. split.
  - eapply Forall_impl; [done|]. done.
  - eapply Forall_impl; [by eapply command_shape_effects|]. done.
Qed.

(** X8. When the loader raises, whatever it is asked, no executor is
    called by [cmd_main], and an exit code that is returned is 3, or 0
    after the print of the version, of the usage or of a help text. *)
Theorem no_executor_without_manifest (cmd_args : list string)
    (h : list effect) :
  (forall h' dodoFile cwdPath seek_file names,
     exists e, get_tasks h' dodoFile cwdPath seek_file names = inl e) ->
  exists t, (cmd_main cmd_args h).1 = h ++ t /\
    Forall (fun ev => ~ is_executor_call ev) t /\
    forall z, (cmd_main cmd_args h).2 = inr z -> z = 0%Z \/ z = 3%Z.
Proof.
  intros Hfail.
  destruct (cmd_main_outcome cmd_args h)
    as [(ev0 & Hev & ->)|(_ & vars & Hv & [[e ->]|(tc & rc & Hs & ->)])].
  - exists [ev0]. split; [done|]. split.
    + constructor; [|constructor].
      by destruct Hev as [[-> _]|[-> _]]; intros [].
    + cbn. intros z [= <-]. by left.
  - exists (ResetVars :: vars). split; [done|]. split; [|done].
    constructor; [by intros []|].
    eapply Forall_impl; [done|]. intros ev ? ?. by destruct ev.
  - assert (Hsets : Forall (fun ev => ~ is_executor_call ev)
                           (ResetVars :: vars)).
    { constructor; [by intros []|].
      eapply Forall_impl; [done|]. intros ev ? ?. by destruct ev. }
    unfold command_shape in Hs.
    destruct Hs as [[-> [e ->]]|[(ev0 & -> & Hev & ->)|
      [(df & cw & sk & e & -> & -> & _)|Hs]]].
    + eexists. split; [reflexivity|]. split.
      * apply (Forall_app _ (ResetVars :: vars) [_]). split; [done|].
        constructor; [|constructor]. intros Hx.
        pose proof (error_report_is_stderr e) as Hst.
        by destruct (error_report e).
      * cbn. intros z [= <-]. by right.
    + eexists. split; [reflexivity|]. split.
      * apply (Forall_app _ (ResetVars :: vars) [_]). split; [done|].
        constructor; [|constructor]. destruct ev0; cbn in *; tauto.
      * cbn. intros z [= <-]. by left.
    + eexists. split; [reflexivity|]. split.
      * apply (Forall_app _ (ResetVars :: vars) [_; _]). split; [done|].
        constructor; [by intros []|]. constructor; [|constructor].
        intros Hx. pose proof (error_report_is_stderr e) as Hst.
        by destruct (error_report e).
      * cbn. intros z [= <-]. by right.
    + exfalso. destruct Hs as (df & cw & sk & dodo & f & eargs & Hs).
      cbn zeta in Hs. destruct Hs as (_ & Hl & _).
      destruct (Hfail (h ++ ResetVars :: vars) df cw sk (dom sub_cmd))
        as [e He].
      congruence.
Qed.

(** X9. [cmd_main] writes to the error stream at most once, as its last
    effect, and then the exit code is 3: what it writes is the report of
    the exception the command raised. *)
Theorem stderr_only_with_exit_3 (cmd_args : list string) (h : list effect) :
  exists t, (cmd_main cmd_args h).1 = h ++ t /\
    (Forall (fun ev => ~ is_stderr ev) t \/
     exists t' err,
       t = t' ++ [error_report err] /\
       Forall (fun ev => ~ is_stderr ev) t' /\
       (cmd_main cmd_args h).2 = inr 3%Z).
Proof.
  destruct (cmd_main_outcome cmd_args h)
    as [(ev0 & Hev & ->)|(_ & vars & Hv & [[e ->]|(tc & rc & Hs & ->)])].
  - exists [ev0]. split; [done|]. left. constructor; [|constructor].
    by destruct Hev as [[-> _]|[-> _]]; intros [].
  - exists (ResetVars :: vars). split; [done|]. left.
    constructor; [by intros []|].
    eapply Forall_impl; [done|]. intros ev ? ?. by destruct ev.
  - assert (Hrun : Forall (fun ev => ~ is_stderr ev)
                          (ResetVars :: vars ++ tc)).
    { eapply Forall_run; [by intros []| | |done..].
      - intros ev ?; destruct ev; cbn in *; (tauto || done).
      - intros ev [?|[?|?]]; destruct ev; cbn in *; (tauto || done). }
    destruct rc as [err|z].
    + exists ((ResetVars :: vars ++ tc) ++ [error_report err]).
      split; [cbn; by rewrite <- app_assoc|]. right.
      by exists (ResetVars :: vars ++ tc), err.
    + exists (ResetVars :: vars ++ tc). split; [done|]. by left.
Qed.

(** X10. The version is printed only for [--version] as the first token:
    nowhere else does [cmd_main] print it. *)
Theorem version_only_first (cmd_args : list string) (h : list effect) :
  exists t, (cmd_main cmd_args h).1 = h ++ t /\
    (PrintVersion ∈ t <-> head cmd_args = Some "--version").
Proof.
  destruct (cmd_main_outcome cmd_args h)
    as [(ev0 & Hev & ->)|(Hnv & vars & Hv & [[e ->]|(tc & rc & Hs & ->)])].
  - exists [ev0]. split; [done|].
    destruct Hev as [[-> Hh]|[-> Hh]]; rewrite Hh.
    + split; [done|]. intros _. left.
    + split; [|done]. intros Hin. apply list_elem_of_singleton in Hin.
      done.
  - exists (ResetVars :: vars). split; [done|]. split; [|done].
    intros Hin. apply elem_of_cons in Hin as [?|Hin]; [done|].
    rewrite Forall_forall in Hv. by apply Hv in Hin.
  - assert (Hrun : Forall (fun ev => ev <> PrintVersion)
                          (ResetVars :: vars ++ tc)).
    { eapply Forall_run; [done| | |done..].
      - intros ev ?; destruct ev; cbn in *; (tauto || done).
      - intros ev [?|[?|?]]; destruct ev; cbn in *; (tauto || done). }
    rewrite Forall_forall in Hrun.
    destruct rc as [err|z].
    + exists ((ResetVars :: vars ++ tc) ++ [error_report err]).
      split; [cbn; by rewrite <- app_assoc|]. split; [|done].
      intros Hin. apply elem_of_app in Hin as [Hin|Hin].
      * by apply Hrun in Hin.
      * apply list_elem_of_singleton in Hin.
        pose proof (error_report_is_stderr err) as Hst.
        by rewrite <- Hin in Hst.
    + exists (ResetVars :: vars ++ tc). split; [done|]. split; [|done].
      intros Hin. by apply Hrun in Hin.
Qed.

(** ** The command name *)

(** X11. The command name [run] is optional: when argv does not start
    with [--version] or [--help] and the first token that is not a
    variable is not a command name (or there is none), writing [run] in
    front of argv changes nothing, whether the scan completes or not. *)
Theorem run_is_default (cmd_args : list string) (h : list effect) :
  special_first cmd_args = false ->
  (forall a, head (kept_tokens cmd_args) = Some a -> a ∉ dom sub_cmd) ->
  cmd_main ("run" :: cmd_args) h = cmd_main cmd_args h.
Proof.
  intros Hsp Hhead.
  rewrite (cmd_main_dispatch ("run" :: cmd_args)) by reflexivity.
  rewrite (cmd_main_dispatch _ Hsp).
  unfold dispatch. unfold_M. cbn [scan_vars]. unfold_M.
  rewrite scan_step_nonempty by done.
  change (is_var "run") with false. cbn iota. rewrite scan_vars_acc.
  destruct (scan_vars cmd_args [] (h ++ [ResetVars]))
    as [h1 [e|args]] eqn:Hs; [done|].
  apply scan_vars_inv in Hs as [_ Hk]. cbn [app] in Hk. subst args.
  assert (E1 : select_command sub_cmd (([] ++ ["run"]) ++ kept_tokens cmd_args)
               = ("run", kept_tokens cmd_args)).
  { cbn [app]. unfold select_command. rewrite bool_decide_eq_true_2; [done|].
    apply elem_of_dom. by exists Run. }
  assert (E2 : select_command sub_cmd (kept_tokens cmd_args)
               = ("run", kept_tokens cmd_args)).
  { destruct (kept_tokens cmd_args) as [|a rest]; [done|].
    unfold select_command. rewrite bool_decide_eq_false_2; [done|].
    by apply Hhead. }
  by rewrite E1, E2.
Qed.

(** X12. A variable may stand anywhere in argv: two argv without an empty
    token that do not start with [--version] or [--help], with the same
    variable tokens in the same order and the same other tokens in the
    same order, make [cmd_main] do the same. *)
Theorem variables_anywhere (cmd_args1 cmd_args2 : list string)
    (h : list effect) :
  Forall (fun a => a <> "") cmd_args1 ->
  Forall (fun a => a <> "") cmd_args2 ->
  special_first cmd_args1 = false -> special_first cmd_args2 = false ->
  var_tokens cmd_args1 = var_tokens cmd_args2 ->
  kept_tokens cmd_args1 = kept_tokens cmd_args2 ->
  cmd_main cmd_args1 h = cmd_main cmd_args2 h.
Proof.
  intros HF1 HF2 Hs1 Hs2 Hv Hk.
  rewrite (cmd_main_dispatch _ Hs1), (cmd_main_dispatch _ Hs2).
  rewrite (dispatch_unfold _ _ _ _ (scan_vars_nonempty _ _ _ HF1)).
  rewrite (dispatch_unfold _ _ _ _ (scan_vars_nonempty _ _ _ HF2)).
  by rewrite Hv, Hk.
Qed.

(** ** The registry, continued *)

Lemma cmd_name_inj (c1 c2 : cmd_class) : cmd_name c1 = cmd_name c2 -> c1 = c2.
Proof. by destruct c1, c2. Qed.

(** X13. The registry built from a list of commands maps a name to a
    command exactly when the command is in the list and the name is its
    name; a command listed twice is registered once. *)
Theorem registry_lookup (cmds : list cmd_class) (a : string)
    (c : cmd_class) :
  build_registry cmds !! a = Some c <-> c ∈ cmds /\ cmd_name c = a.
Proof.
  unfold build_registry.
  assert (G : forall (m : gmap string cmd_class),
             foldl (fun m c => <[cmd_name c := c]> m) m cmds !! a = Some c <->
             (c ∈ cmds /\ cmd_name c = a) \/
             (a ∉ cmd_name <$> cmds) /\ m !! a = Some c).
  { induction cmds as [|c0 cmds IH]; intros m; cbn.
    - split; [intros H; right; split; [apply not_elem_of_nil|done]|].
      intros [[H _]|[_ H]]; [by apply elem_of_nil in H|done].
    - rewrite IH. rewrite elem_of_cons, not_elem_of_cons.
      destruct (decide (cmd_name c0 = a)) as [Ha|Ha].
      + rewrite <- Ha, lookup_insert_eq. split.
        * intros [[Hin Hn]|[Hnot [= <-]]]; left; split; auto.
        * intros [[[->|Hin] Hn]|[[Hne _] _]]; [|by left|done].
          destruct (decide (cmd_name c0 ∈ cmd_name <$> cmds)) as [Hi|Hi];
            [|by right].
          left. split; [|done].
          apply list_elem_of_fmap in Hi as (c' & Hn' & Hin').
          by rewrite (cmd_name_inj _ _ Hn').
      + rewrite lookup_insert_ne by done. split.
        * intros [[Hin Hn]|[Hnot Hm]]; [left; split; auto|right].
          split; [split; [done|done]|done].
        * intros [[[->|Hin] Hn]|[[_ Hnot] Hm]]; [done|by left|by right]. }
  rewrite G. rewrite lookup_empty. split; [|by left].
  by intros [?|[_ ?]].
Qed.

(** ** The option tables *)

(** X14. The options of a command cannot be confused: within each
    command no two options share an id, no two share a long flag (the
    inverse flags counted), no two share a short flag; a short flag is at
    most one character, and only a boolean option declares an inverse
    flag. *)
Theorem option_tables_unambiguous (c : cmd_class) :
  NoDup (opt_name <$> set_options c) /\
  NoDup ((opt_long <$> set_options c) ++ omap opt_inverse (set_options c)) /\
  NoDup (List.filter (fun s => negb (String.eqb s ""))
                     (opt_short <$> set_options c)) /\
  Forall (fun o => String.length (opt_short o) <= 1 /\
                   (is_Some (opt_inverse o) -> opt_ty o = TBool))
         (set_options c).
Proof.
  destruct c; (split; [compute_done|]); (split; [compute_done|]);
    (split; [compute_done|]);
    repeat (constructor; [split; [cbn; lia|cbn; by intros [? ?]]|]);
    constructor.
Qed.

(** ** The order of the effects *)

Lemma not_in_reset (vars : list effect) (ev : effect) :
  Forall is_set_var vars -> ev <> ResetVars -> ~ is_set_var ev ->
  ev ∉ ResetVars :: vars.
Proof.
  intros Hv Hr Hs Hin. apply elem_of_cons in Hin as [?|Hin]; [done|].
  rewrite Forall_forall in Hv. by apply Hv in Hin.
Qed.

(** X15. Unless argv starts with [--version] or [--help], the first
    effect of [cmd_main] is the reset of the variable table, the calls of
    [set_var] follow it, and whatever comes after them (the loader, an
    executor, a print, the error stream) neither resets nor sets a
    variable: every variable is recorded before the manifest is loaded. *)
Theorem variables_before_command (cmd_args : list string)
    (h : list effect) :
  special_first cmd_args = false ->
  exists vars rest,
    (cmd_main cmd_args h).1 = h ++ ResetVars :: vars ++ rest /\
    Forall is_set_var vars /\
    Forall (fun ev => ev <> ResetVars /\ ~ is_set_var ev) rest.
Proof.
  intros Hsp.
  destruct (cmd_main_outcome cmd_args h)
    as [(ev0 & Hev & _)|(_ & vars & Hv & [[e ->]|(tc & rc & Hs & ->)])].
  - exfalso. destruct cmd_args as [|first rest]; cbn in *;
      [by destruct Hev as [[_ ?]|[_ ?]]|].
    destruct Hev as [[_ [= ->]]|[_ [= ->]]]; done.
  - exists vars, []. rewrite app_nil_r. by repeat split.
  - assert (Hrun : Forall (fun ev => ev <> ResetVars /\ ~ is_set_var ev) tc).
    { eapply Forall_impl; [by eapply command_shape_effects|].
      intros ev [?|[?|?]]; destruct ev; cbn in *; try tauto;
        (split; [done|tauto]). }
    destruct rc as [err|z].
    + exists vars, (tc ++ [error_report err]). split; [done|].
      split; [done|]. apply Forall_app. split; [done|].
      constructor; [|constructor].
      pose proof (error_report_is_stderr err) as Hst.
      destruct (error_report err); cbn in *; try tauto;
        (split; [done|tauto]).
    + by exists vars, tc.
Qed.

(** X16. An exception of the loader is reported and gives exit code 3:
    when the call of the loader is the last effect but one of [cmd_main]
    and the loader raised, the last effect is the report of that
    exception, which for an invalid manifest is the one line [ERROR: ]
    with the message, and [cmd_main] returns 3. *)
Theorem loader_error_reported (cmd_args : list string) (h t : list effect)
    (dodoFile cwdPath seek_file : value) (names : gset string)
    (e : exn) (ev : effect) (r : exn + Z) :
  cmd_main cmd_args h =
    (h ++ t ++ [GetTasks dodoFile cwdPath seek_file names; ev], r) ->
  get_tasks (h ++ t) dodoFile cwdPath seek_file names = inl e ->
  ev = error_report e /\ r = inr 3%Z /\
  (forall msg, e = InvalidDodoFile msg ->
               ev = StderrWrite ("ERROR: " +:+ msg +:+ "
")).
Proof.
  intros H Hl.
  enough (ev = error_report e /\ r = inr 3%Z) as [-> ->].
  { repeat split. by intros msg ->. }
  set (G := GetTasks dodoFile cwdPath seek_file names) in *.
  assert (HG : forall vars, Forall is_set_var vars -> G ∉ ResetVars :: vars).
  { intros vars Hv. apply not_in_reset; [done|done|by intros []]. }
  rewrite snoc2 in H.
  destruct (cmd_main_outcome cmd_args h)
    as [(ev0 & Hev & Hc)|(_ & vars & Hv & [[e0 Hc]|(tc & rc & Hs & Hc)])];
    rewrite Hc in H; clear Hc.
  - exfalso. injection H as H _. apply app_inv_head in H.
    apply (snoc_inv [] _) in H as [H _]. by destruct t.
  - exfalso. injection H as H _. apply app_inv_head in H.
    apply (HG vars Hv). in_hist H.
  - unfold command_shape in Hs.
    destruct Hs as [[-> [e0 ->]]|[(ev0 & -> & Hev & ->)|
      [(df & cw & sk & e0 & -> & -> & Hm)|Hs]]].
    + exfalso. injection H as H _. apply app_inv_head in H. cbn [app] in H.
      apply (snoc_inv (ResetVars :: vars) _) in H as [H _].
      apply (HG vars Hv). in_hist H.
    + exfalso. injection H as H _. apply app_inv_head in H.
      apply (snoc_inv (ResetVars :: vars) _) in H as [H _].
      apply (HG vars Hv). in_hist H.
    + injection H as H Hr. apply app_inv_head in H. cbn [app] in H.
      rewrite (snoc2 vars) in H.
      apply (snoc_inv (ResetVars :: vars ++ [_]) _) in H as [H <-].
      apply (snoc_inv (ResetVars :: vars) t) in H as [<- HGeq].
      unfold G in HGeq. injection HGeq as -> -> -> <-.
      rewrite Hl in Hm. by subst e0.
    + destruct Hs as (df & cw & sk & dodo & f & eargs & Hs).
      cbn zeta in Hs. destruct Hs as (-> & Hd & ->). exfalso.
      destruct (call_executor _ f eargs) as [err|z].
      * injection H as H _. apply app_inv_head in H. cbn [app] in H.
        rewrite (snoc3 vars) in H.
        apply (snoc_inv (ResetVars :: vars ++ [_; _]) _) in H as [H _].
        rewrite (snoc2 vars) in H.
        apply (snoc_inv (ResetVars :: vars ++ [_]) t) in H as [_ H].
        discriminate.
      * injection H as H _. apply app_inv_head in H.
        rewrite (snoc2 vars) in H.
        apply (snoc_inv (ResetVars :: vars ++ [_]) _) in H as [H _].
        apply (snoc_inv (ResetVars :: vars) t) in H as [<- HGeq].
        unfold G in HGeq. injection HGeq as -> -> -> <-.
        congruence.
Qed.

End Doit.

(** * The theorems at concrete inputs *)

Lemma sample_tokenize :
  tokenize (set_options Run) 0 sample_argv = inr (sample_events, []).
Proof. reflexivity. Qed.

Lemma sample_parse :
  parse sample_convert (set_options Run) sample_argv = inr (sample_params, []).
Proof. vm_compute. reflexivity. Qed.

(** [doit list --quiet build]: command [list], [quiet] true, selection
    [build]. *)
Example scenario_list_quiet :
  cmd_main (Task:=string) sample_get_tasks sample_executor sample_convert
           ["list"; "--quiet"; "build"] [] =
    ([ResetVars;
      GetTasks (VStr "dodo.py") VNone (VBool false)
               (dom (build_registry DOIT_BUILTIN_CMDS));
      Execute doit_list
        [AVal (VStr ".doit.db"); ATasks []; AVal VStdout;
         AVal (VList ["build"]); AVal (VBool false); AVal (VBool false);
         AVal (VBool false); AVal (VBool false); AVal (VBool false)]],
     inr 0%Z).
Proof. vm_compute. reflexivity. Qed.

(** [doit clean -a]: [cleanall] true and an empty selection. *)
Example scenario_clean_all :
  cmd_main (Task:=string) sample_get_tasks sample_executor sample_convert
           ["clean"; "-a"] [] =
    ([ResetVars;
      GetTasks (VStr "dodo.py") VNone (VBool false)
               (dom (build_registry DOIT_BUILTIN_CMDS));
      Execute doit_clean
        [ATasks []; AVal VStdout; AVal (VBool false);
         AVal (VBool false); AVal (VBool true); AVal (VList ["build"]);
         AVal (VList [])]],
     inr 0%Z).
Proof. vm_compute. reflexivity. Qed.

(** [doit a=b=c --bogus]: the variable is split at its first [=], and the
    unrecognized flag of the default command is a user error. *)
Example scenario_user_error :
  cmd_main (Task:=string) sample_get_tasks sample_executor sample_convert
           ["a=b=c"; "--bogus"] [] =
    ([ResetVars; SetVar "a" "b=c";
      StderrWrite "ERROR: unrecognized option --bogus
"],
     inr 3%Z).
Proof. vm_compute. reflexivity. Qed.

(** C1 at [doit --continue -n 4 --no-continue] with the sample manifest:
    [continue] is false from the command line although the manifest says
    true, [verbosity] is the 2 of the manifest, [reporter] keeps its
    default. *)
Lemma precedence_law_witness :
  exists h' params' self,
    read_dodo (Task:=string) sample_get_tasks (mkParams sample_params ∅) [] [] =
      (h', inr (params', self)) /\
    items (pset params') !! "continue" = Some (VBool false) /\
    items (pset params') !! "verbosity" = Some (VInt 2) /\
    items (pset params') !! "reporter" = Some (VStr "default").
Proof.
  assert (Hnv : ~ supplied "verbosity" sample_events).
  { intros (e & He & Hn). unfold sample_events in He. list_cases He. }
  assert (Hnr : ~ supplied "reporter" sample_events).
  { intros (e & He & Hn). unfold sample_events in He. list_cases He. }
  assert (Hsc : supplied "continue" sample_events).
  { exists (mkEvent 0 opt_continue Direct None). split; [left|done]. }
  destruct (precedence_law (Task:=string) sample_get_tasks sample_executor sample_convert
              Run sample_argv sample_events [] [] sample_params ∅ []
              opt_continue eq_refl sample_tokenize sample_parse)
    as (d1 & c1 & s1 & D1 & C1 & S1 & K1); [list_mem|].
  destruct (precedence_law (Task:=string) sample_get_tasks sample_executor sample_convert
              Run sample_argv sample_events [] [] sample_params ∅ []
              opt_verbosity eq_refl sample_tokenize sample_parse)
    as (d2 & c2 & s2 & D2 & C2 & S2 & K2); [list_mem|].
  destruct (precedence_law (Task:=string) sample_get_tasks sample_executor sample_convert
              Run sample_argv sample_events [] [] sample_params ∅ []
              opt_reporter eq_refl sample_tokenize sample_parse)
    as (d3 & c3 & s3 & D3 & C3 & S3 & K3); [list_mem|].
  destruct (K1 _ eq_refl) as (params' & self & R1 & T1 & _).
  destruct (K2 _ eq_refl) as (params2 & self2 & R2 & _ & T2 & _).
  destruct (K3 _ eq_refl) as (params3 & self3 & R3 & _ & _ & T3).
  assert (E2 : params2 = params') by congruence.
  assert (E3 : params3 = params') by congruence.
  subst params2 params3.
  destruct (T1 Hsc) as (v & Hv & Hr).
  exists ([] ++ [GetTasks d1 c1 s1 (dom (∅ : gmap string cmd_class))]),
    params', self.
  split; [exact R1|]. split; [|split].
  - vm_compute in Hv. injection Hv as <-. exact Hr.
  - by apply (T2 Hnv).
  - by apply (T3 Hnr).
Defined.

(** C5 at [doit --continue -n 4 --no-continue]: the inverse flag, at
    index 3, stands after the only occurrence of the flag, at index 0. *)
Lemma inverse_boolean_law_witness :
  items sample_params !! "continue" = Some (VBool false).
Proof.
  apply (inverse_boolean_law sample_convert (set_options Run) sample_argv
           sample_events [] sample_params "continue").
  - intros o Ho Hn. cbn in Ho. list_cases Ho.
  - exact sample_tokenize.
  - exact sample_parse.
  - exists 0, (mkEvent 0 opt_continue Direct None). split; [left|done].
  - exists 3. split.
    + exists (mkEvent 3 opt_continue Inverse None).
      split; [do 2 right; left|done].
    + intros i (e & He & <- & Hn & Hpol). unfold sample_events in He.
      list_cases He. cbn. lia.
Defined.

(** C3 at [doit x=1 list -q]: once [x=1] is taken out, [list] is popped
    and its command receives [-q]. *)
Lemma command_resolution_witness :
  exists c, cmd_name c = "list" /\
    dispatch (Task:=string) sample_get_tasks sample_executor sample_convert
             ["x=1"; "list"; "-q"] [] =
    try_except (parse_execute sample_get_tasks sample_executor sample_convert
                              c ["-q"] (build_registry DOIT_BUILTIN_CMDS))
               (handle_error (Task:=string)) [ResetVars; SetVar "x" "1"].
Proof.
  destruct (command_resolution (Task:=string) sample_get_tasks sample_executor
              sample_convert ["x=1"; "list"; "-q"] ["list"; "-q"] []
              [ResetVars; SetVar "x" "1"] eq_refl) as [_ H].
  destruct (H "list" ["-q"] eq_refl) as [_ Hc]; [|exact Hc].
  apply elem_of_dom. by exists List.
Defined.

(** C8 with the sample manifest and no positional argument: the selection
    is the default task list of the manifest. *)
Lemma read_dodo_selection_witness :
  exists h' params' self,
    read_dodo (Task:=string) sample_get_tasks (mkParams sample_params ∅) [] [] =
      (h', inr (params', self)) /\
    sel_tasks self = VList ["build"].
Proof.
  destruct (read_dodo_selection (Task:=string) sample_get_tasks
              (mkParams sample_params ∅) [] [] (VStr "dodo.py") VNone
              (VBool false) (mkDodo [] sample_config))
    as (params' & self & Hr & _ & _ & _ & Hsel);
    [vm_compute; reflexivity..|reflexivity|].
  exists ([] ++ [GetTasks (VStr "dodo.py") VNone (VBool false)
                          (dom (∅ : gmap string cmd_class))]), params', self.
  split; [exact Hr|]. by rewrite Hsel.
Defined.

(** C6 at [doit help task]. *)
Lemma Help_execute_spec_witness :
  Help_execute (Task:=string)
               (mkParams sample_params (build_registry DOIT_BUILTIN_CMDS))
               ["task"] [] = ([PrintTaskHelp], inr 0%Z).
Proof.
  apply (proj2 (Help_execute_spec (Task:=string)
                  (mkParams sample_params (build_registry DOIT_BUILTIN_CMDS))
                  ["task"] [])).
  - reflexivity.
  - reflexivity.
Defined.

(** C10 at the token [=v] followed by the task [t]. *)
Lemma empty_name_variable_witness :
  (exists calls : list (@effect string),
     [SetVar "" "v"] = [] ++ calls /\ In (SetVar "" "v") calls) /\
  ~ In "=v" ["t"].
Proof.
  apply (proj2 (empty_name_variable (Task:=string) "v")
           ["=v"; "t"] ["t"] [] [SetVar "" "v"]).
  - reflexivity.
  - left. reflexivity.
Defined.

(** X1 at [doit a=1 list b=2 -q]. *)
Lemma scan_vars_partition_witness :
  scan_vars (Task:=string) ["a=1"; "list"; "b=2"; "-q"] [] [] =
    ([SetVar "a" "1"; SetVar "b" "2"], inr ["list"; "-q"]).
Proof.
  apply (scan_vars_partition (Task:=string) ["a=1"; "list"; "b=2"; "-q"] []).
  repeat constructor; done.
Defined.

(** X3 at the bindings of [a] to [1] and of the empty name to [x=y]. *)
Lemma variable_round_trip_witness :
  scan_vars (Task:=string) ["a=1"; "=x=y"] [] [] =
    ([SetVar "a" "1"; SetVar "" "x=y"], inr []).
Proof.
  apply (variable_round_trip (Task:=string) [("a", "1"); ("", "x=y")] []).
  repeat constructor; done.
Defined.


(** X5 at [run] with the sample parameters and manifest and no positional
    argument: the executor receives the default tasks of the manifest. *)
Lemma selection_forwarded_witness :
  [AVal (VStr ".doit.db"); ATasks ([] : list string); AVal VStdout;
   AVal (VList ["build"]); AVal (VInt 2); AVal (VBool false);
   AVal (VBool false); AVal (VStr "default"); AVal (VInt 4)] !! 3 =
  Some (AVal (get_default_tasks sample_config)).
Proof.
  destruct (selection_forwarded (Task:=string) sample_get_tasks
              sample_executor Run (mkParams sample_params ∅) [] []
              (GetTasks (VStr "dodo.py") VNone (VBool false)
                        (dom (∅ : gmap string cmd_class)))
              doit_run
              [AVal (VStr ".doit.db"); ATasks []; AVal VStdout;
               AVal (VList ["build"]); AVal (VInt 2); AVal (VBool false);
               AVal (VBool false); AVal (VStr "default"); AVal (VInt 4)]
              (inr 0%Z))
    as (df & cw & sk & dodo & _ & Hl & _ & _ & Hsel);
    [vm_compute; reflexivity|].
  injection Hl as <-. exact Hsel.
Defined.


(** X8 at [doit run] without a manifest. *)
Lemma no_executor_without_manifest_witness :
  exists t,
    (cmd_main (Task:=string) failing_get_tasks sample_executor
              sample_convert ["run"] []).1 = t /\
    Forall (fun ev => ~ is_executor_call ev) t.
Proof.
  destruct (no_executor_without_manifest (Task:=string) failing_get_tasks
              sample_executor sample_convert ["run"] [])
    as (t & Ht & Hn & _).
  - intros h' df cw sk names. by eexists.
  - exists t. by split.
Defined.

(** X11 at [doit build a=1]. *)
Lemma run_is_default_witness :
  cmd_main (Task:=string) sample_get_tasks sample_executor sample_convert
           ["run"; "build"; "a=1"] [] =
  cmd_main (Task:=string) sample_get_tasks sample_executor sample_convert
           ["build"; "a=1"] [].
Proof.
  apply (run_is_default (Task:=string) sample_get_tasks sample_executor
           sample_convert ["build"; "a=1"] [] eq_refl).
  intros a [= <-]. apply not_elem_of_dom. reflexivity.
Defined.

(** X12 at [doit a=1 list] and [doit list a=1]. *)
Lemma variables_anywhere_witness :
  cmd_main (Task:=string) sample_get_tasks sample_executor sample_convert
           ["a=1"; "list"] [] =
  cmd_main (Task:=string) sample_get_tasks sample_executor sample_convert
           ["list"; "a=1"] [].
Proof.
  apply (variables_anywhere (Task:=string) sample_get_tasks sample_executor
           sample_convert ["a=1"; "list"] ["list"; "a=1"] []);
    try reflexivity; repeat constructor; done.
Defined.

(** X15 at [doit a=1 list]. *)
Lemma variables_before_command_witness :
  exists vars rest,
    (cmd_main (Task:=string) sample_get_tasks sample_executor sample_convert
              ["a=1"; "list"] []).1 = [] ++ ResetVars :: vars ++ rest /\
    Forall is_set_var vars /\
    Forall (fun ev => ev <> ResetVars /\ ~ is_set_var ev) rest.
Proof.
  apply (variables_before_command (Task:=string) sample_get_tasks
           sample_executor sample_convert ["a=1"; "list"] []).
  reflexivity.
Defined.

(** X16 at [doit run] without a manifest. *)
Lemma loader_error_reported_witness :
  StderrWrite "ERROR: no dodo file
" = error_report (Task:=string) (InvalidDodoFile "no dodo file") /\
  (inr 3%Z : exn + Z) = inr 3%Z.
Proof.
  destruct (loader_error_reported (Task:=string) failing_get_tasks
              sample_executor sample_convert ["run"] [] [ResetVars]
              (VStr "dodo.py") VNone (VBool false)
              (dom (build_registry DOIT_BUILTIN_CMDS))
              (InvalidDodoFile "no dodo file")
              (StderrWrite "ERROR: no dodo file
")
              (inr 3%Z)) as (H1 & H2 & _);
    [vm_compute; reflexivity|reflexivity|].
  by split.
Defined.
